(** * Fly-App: a shallow embedding of the advertisement studio

    The development follows the two source files of the repository:

    - [src/services/geminiService.ts]: the two request wrappers
      [generateAdContent] and [editAdImage], with the regular expressions
      and the [trim] calls that take the model's answer apart;
    - [src/App.tsx]: the React component, its state, and the handlers
      [saveCurrentProject], [handleGenerate], [handleGenerateAnother],
      [handleEdit], [handleReset] and [handleDeleteProject].

    JavaScript strings are sequences of UTF-16 code units, so a string is a
    [list N] here; regular expressions without the [u] flag and
    [String.prototype.trim] both work on code units. *)

From Stdlib Require Import String Ascii NArith.
From stdpp Require Import base tactics option list gmap.

Set Default Proof Using "Type".

(** ** JavaScript strings *)

Module JsString.

(** A string value: its UTF-16 code units. *)
Definition jsstring := list N.

(** The code units of an ASCII literal. *)
Definition u16 (s : string) : jsstring :=
  List.map N_of_ascii (list_ascii_of_string s).

(** WhiteSpace and LineTerminator of ECMAScript, the code units that
    [String.prototype.trim] strips and that [\s] matches. *)
Definition is_ws (c : N) : bool :=
  ((9 <=? c) && (c <=? 13))%N          (* TAB, LF, VT, FF, CR *)
  || (c =? 32)%N                       (* SPACE *)
  || (c =? 160)%N                      (* NO-BREAK SPACE *)
  || (c =? 5760)%N                     (* OGHAM SPACE MARK *)
  || ((8192 <=? c) && (c <=? 8202))%N  (* EN QUAD .. HAIR SPACE *)
  || (c =? 8232)%N || (c =? 8233)%N    (* LINE / PARAGRAPH SEPARATOR *)
  || (c =? 8239)%N || (c =? 8287)%N    (* NARROW NBSP, MEDIUM MATH SPACE *)
  || (c =? 12288)%N                    (* IDEOGRAPHIC SPACE *)
  || (c =? 65279)%N.                   (* ZERO WIDTH NO-BREAK SPACE *)

Fixpoint trimStart (s : jsstring) : jsstring :=
  match s with
  | c :: s' => if is_ws c then trimStart s' else s
  | [] => []
  end.

Definition trimEnd (s : jsstring) : jsstring :=
  reverse (trimStart (reverse s)).

(** [s.trim()] *)
Definition trim (s : jsstring) : jsstring := trimEnd (trimStart s).

(** [s.substring(i, k)] for [i <= k]. *)
Definition substring (i k : nat) (s : jsstring) : jsstring :=
  take (k - i) (drop i s).

(** The literal [lit] occurs in [s] at index [i]. *)
Definition occurs_at (lit s : jsstring) (i : nat) : Prop :=
  take (length lit) (drop i s) = lit.

End JsString.
Export JsString.

(** ** The regular expressions of the parsing step

  Both patterns of [generateAdContent] are built from literal characters
  and one capturing group: a greedy star over the class [\s\S], which
  accepts every code unit. *)

Module Regex.

Inductive item :=
| Chr (c : N)          (* a literal character *)
| CaptureAnyStar.      (* the group: a greedy star over [\s\S] *)

Definition pattern := list item.

Definition lit (s : jsstring) : pattern := Chr <$> s.

(** Backtracking match of [p] at the start of [s]; the result lists the
    captured groups. The star first tries to consume one more code unit
    and gives it back when the rest of the pattern then fails. *)
Fixpoint match_here (p : pattern) : jsstring → option (list jsstring) :=
  match p with
  | [] => λ _, Some []
  | Chr c :: p' => λ s,
      match s with
      | c' :: s' => if decide (c = c') then match_here p' s' else None
      | [] => None
      end
  | CaptureAnyStar :: p' =>
      fix star (s : jsstring) : option (list jsstring) :=
        let give_back :=
          caps ← match_here p' s; Some ([] :: caps) in
        match s with
        | c :: s' =>
            match star s' with
            | Some (cap :: caps) => Some ((c :: cap) :: caps)
            | _ => give_back
            end
        | [] => give_back
        end
  end.

(** [RegExp.prototype.exec] without the [g] flag: the match at the
    leftmost start index that has one. *)
Fixpoint exec (p : pattern) (s : jsstring) : option (list jsstring) :=
  match match_here p s with
  | Some caps => Some caps
  | None =>
      match s with
      | _ :: s' => exec p s'
      | [] => None
      end
  end.

(** [m[1]] of a successful match. *)
Definition group1 (caps : list jsstring) : jsstring := default [] (caps !! 0).

End Regex.

(** ** src/services/geminiService.ts *)

Module GeminiService.
Import Regex.

Definition DESCRIPCION : jsstring := u16 "---DESCRIPCION---".
Definition PROMPT : jsstring := u16 "---PROMPT---".

(** The pattern of [descriptionMatch]: the literal ---DESCRIPCION---,
    the capturing group, the literal ---PROMPT---. *)
Definition description_re : pattern :=
  lit DESCRIPCION ++ [CaptureAnyStar] ++ lit PROMPT.

(** The pattern of [promptMatch]: the literal ---PROMPT--- and the
    capturing group. *)
Definition prompt_re : pattern := lit PROMPT ++ [CaptureAnyStar].

Definition descriptionMatch (responseText : jsstring) := exec description_re responseText.
Definition promptMatch (responseText : jsstring) := exec prompt_re responseText.

(** The fixed fallback description; 243 and 233 are the accented o and e. *)
Definition fallback_description : jsstring :=
  u16 "No se pudo generar la descripci" ++ [243%N] ++ u16 "n. Int"
    ++ [233%N] ++ u16 "ntalo de nuevo.".

Definition fallback_prompt (style : jsstring) : jsstring :=
  u16 "A professional advertisement image based on the user's provided images and context, in a "
    ++ style ++ u16 " style.".

(** *** Exceptions and the effects of the service functions *)

Inductive exn :=
| Error (message : jsstring)      (* [new Error(message)] *)
| TypeError (message : jsstring)  (* raised by the runtime, an [Error] too *)
| Thrown (value : jsstring).      (* a thrown value that is no [Error] *)

(** What the runtime raises on [undefined.prop]; the text is V8's. *)
Definition read_of_undefined (prop : jsstring) : exn :=
  TypeError (u16 "Cannot read properties of undefined (reading '" ++ prop ++ u16 "')").

Record Blob := { data : jsstring; mimeType : jsstring }.

(** What [fileToBase64] resolves to, and what [generateAdContent] takes. *)
Record Base64Image := { base64 : jsstring; img_mimeType : jsstring }.

(** A content part, of a request or of a response. *)
Record Part := { inlineData : option Blob; text_of : option jsstring }.

Inductive Modality := IMAGE | TEXT.

Record ContentRequest := {
  cr_model : jsstring;
  cr_parts : list Part;
  cr_responseModalities : option (list Modality) }.

Record ImagesRequest := {
  ir_model : jsstring;
  ir_prompt : jsstring;
  ir_numberOfImages : nat;
  ir_outputMimeType : jsstring;
  ir_aspectRatio : jsstring }.

Record Content := { parts : list Part }.
Record Candidate := { content : Content }.
Record GenerateContentResponse := { text : jsstring; candidates : list Candidate }.

Record Image := { imageBytes : jsstring }.
Record GeneratedImage := { image : Image }.
Record GenerateImagesResponse := { generatedImages : option (list GeneratedImage) }.

(** The generative-AI service and the environment of a call: the
    credential read from [process.env.API_KEY] and the answers of the two
    endpoints, which either resolve or reject. *)
Record Service := {
  API_KEY : option jsstring;
  models_generateContent : ContentRequest → exn + GenerateContentResponse;
  models_generateImages : ImagesRequest → exn + GenerateImagesResponse }.

Inductive event :=
| CallGenerateContent (req : ContentRequest)
| CallGenerateImages (req : ImagesRequest)
| ConsoleWarn (args : list jsstring).

(** An asynchronous computation of the service module: the requests it
    issued and the warnings it logged, in order, and how it settled. *)
Record M (A : Type) := Run { trace : list event; outcome : exn + A }.
Arguments Run {A} _ _.
Arguments trace {A} _.
Arguments outcome {A} _.

#[global] Instance M_ret : MRet M := λ A x, Run [] (inr x).
#[global] Instance M_bind : MBind M := λ A B k m,
  match outcome m with
  | inl e => Run (trace m) (inl e)
  | inr x => Run (trace m ++ trace (k x)) (outcome (k x))
  end.

Definition throw {A} (e : exn) : M A := Run [] (inl e).
Definition console_warn (args : list jsstring) : M unit := Run [ConsoleWarn args] (inr ()).
Definition await_generateContent (svc : Service) (req : ContentRequest) : M GenerateContentResponse :=
  Run [CallGenerateContent req] (models_generateContent svc req).
Definition await_generateImages (svc : Service) (req : ImagesRequest) : M GenerateImagesResponse :=
  Run [CallGenerateImages req] (models_generateImages svc req).

(** [getAiClient]: an unset or empty credential is falsy. *)
Definition getAiClient (svc : Service) : M jsstring :=
  match API_KEY svc with
  | Some (c :: k) => mret (c :: k)
  | _ => throw (Error (u16 "API_KEY no est" ++ [225%N]
           ++ u16 " configurada. Aseg" ++ [250%N]
           ++ u16 "rate de que la variable de entorno API_KEY est" ++ [233%N]
           ++ u16 " disponible."))
  end.

(** What the parsing step (lines 51 to 59) leaves in scope. *)
Record Parsed := { p_description : jsstring; p_imageGenerationPrompt : jsstring }.

Definition warn_text : jsstring :=
  u16 "La respuesta de Gemini no sigui" ++ [243%N] ++ u16 " el formato esperado:".

Definition parse_step (responseText style : jsstring) : M Parsed :=
  let descriptionMatch := exec description_re responseText in
  let promptMatch := exec prompt_re responseText in
  let description :=
    match descriptionMatch with
    | Some m => trim (group1 m)
    | None => fallback_description
    end in
  let imageGenerationPrompt :=
    match promptMatch with
    | Some m => trim (group1 m)
    | None => fallback_prompt style
    end in
  (if bool_decide (descriptionMatch = None) || bool_decide (promptMatch = None)
   then console_warn [warn_text; responseText]
   else mret ());;
  mret {| p_description := description; p_imageGenerationPrompt := imageGenerationPrompt |}.

(** The style label that the component starts with. *)
Definition Automatico_style : jsstring := u16 "Autom" ++ [225%N] ++ u16 "tico".

(** A generation as the service returns it and as the component keeps it. *)
Record Generation := { imageUrl : jsstring; description : jsstring }.

(** The fixed text of the instruction template, code unit by code unit, in
    three pieces: before the user context, between the context and the
    style, after the style. 10 is the line feed, 34 the double quote. *)
Definition instruction_head : jsstring :=
  [10%N] ++ u16 "    Eres un director de arte y experto en marketing de clase mundial. Tu misi" ++
  [243%N] ++ u16 "n es redise" ++ [241%N] ++ u16 "ar un anuncio a partir de las im" ++ [225%N] ++
  u16 "genes y el texto proporcionado." ++ [10%N] ++ [10%N] ++ u16 "    **An" ++ [225%N] ++
  u16 "lisis de Contenido (Reglas estrictas):**" ++ [10%N] ++
  u16 "    1.  **PRIORIDAD 1 - TEXTO DEL USUARIO:** Analiza el " ++ [34%N] ++
  u16 "Contexto del usuario" ++ [34%N] ++ u16 ". Si contiene detalles del producto, informaci" ++
  [243%N] ++
  u16 "n de contacto, precios u ofertas, esa es la fuente principal de texto que DEBES integrar en la nueva imagen." ++
  [10%N] ++ u16 "    2.  **PRIORIDAD 2 - TEXTO EN IMAGEN:** Solo si el " ++ [34%N] ++
  u16 "Contexto del usuario" ++ [34%N] ++ u16 " est" ++ [225%N] ++ u16 " vac" ++ [237%N] ++
  u16 "o o es gen" ++ [233%N] ++ u16 "rico (ej. " ++ [34%N] ++ u16 "hazlo bonito" ++ [34%N] ++
  u16 "), entonces extrae CUALQUIER texto legible de las im" ++ [225%N] ++
  u16 "genes (nombres, ofertas, etc.)." ++ [10%N] ++ [10%N] ++ u16 "    Contexto del usuario: " ++
  [34%N].

Definition instruction_mid : jsstring :=
  [34%N; 10%N] ++ u16 "    Estilo deseado: " ++ [34%N].

Definition instruction_tail : jsstring :=
  [34%N; 10%N] ++ [10%N] ++ u16 "    **Tu Tarea (sigue este formato EXACTAMENTE):**" ++ [10%N] ++
  u16 "    ---TEXTO_A_INTEGRAR---" ++ [10%N] ++ u16 "    [Aqu" ++ [237%N] ++
  u16 " escribe el texto final que usar" ++ [225%N] ++
  u16 "s en la imagen, basado en las reglas de prioridad de arriba. Si no hay texto de ninguna fuente, escribe " ++
  [34%N] ++ u16 "Ninguno." ++ [34%N] ++ u16 "]" ++ [10%N] ++ u16 "    ---DESCRIPCION---" ++
  [10%N] ++ u16 "    [Aqu" ++ [237%N] ++ u16 " escribe un texto de marketing corto en espa" ++
  [241%N] ++ u16 "ol para redes sociales (m" ++ [225%N] ++
  u16 "ximo 3 frases), usando el estilo deseado, emojis y hashtags. Debe ser coherente con el TEXTO_A_INTEGRAR.]" ++
  [10%N] ++ u16 "    ---PROMPT---" ++ [10%N] ++ u16 "    [Aqu" ++ [237%N] ++
  u16 " escribe un prompt detallado en INGL" ++ [201%N] ++ u16 "S para un generador de im" ++
  [225%N] ++ u16 "genes. El prompt debe:" ++ [10%N] ++ u16 "    1. Redise" ++ [241%N] ++
  u16 "ar la imagen en el estilo deseado (si es 'Autom" ++ [225%N] ++
  u16 "tico', elige el mejor estilo visual)." ++ [10%N] ++
  u16 "    2. Crear una escena profesional, de alta calidad y fotorealista o de dise" ++ [241%N] ++
  u16 "o gr" ++ [225%N] ++ u16 "fico seg" ++ [250%N] ++ u16 "n corresponda." ++ [10%N] ++
  u16 "    3. **CR" ++ [205%N] ++ u16 "TICO:** Integrar el texto de " ++ [34%N] ++
  u16 "TEXTO_A_INTEGRAR" ++ [34%N] ++ u16 " de forma natural, est" ++ [233%N] ++
  u16 "tica y legible en el dise" ++ [241%N] ++ u16 "o de la nueva imagen. Si el texto es " ++
  [34%N] ++ u16 "Ninguno" ++ [34%N] ++ u16 ", no a" ++ [241%N] ++ u16 "adas texto.]" ++ [10%N] ++
  u16 "  ".

Definition descriptionGeneratorPrompt (userPrompt style : jsstring) : jsstring :=
  instruction_head
    ++ (match userPrompt with [] => u16 "Ninguno." | _ => userPrompt end)
    ++ instruction_mid ++ style ++ instruction_tail.

Definition generateAdContent (svc : Service)
    (images : list Base64Image) (userPrompt style : jsstring) : M Generation :=
  _ ← getAiClient svc;
  let contentParts :=
    ((λ img, {| inlineData := Some {| data := base64 img; mimeType := img_mimeType img |};
                text_of := None |}) <$> images)
    ++ [ {| inlineData := None;
            text_of := Some (descriptionGeneratorPrompt userPrompt style) |} ] in
  descriptionResponse ← await_generateContent svc
    {| cr_model := u16 "gemini-2.5-flash"; cr_parts := contentParts;
       cr_responseModalities := None |};
  let responseText := text descriptionResponse in
  parsed ← parse_step responseText style;
  imageResponse ← await_generateImages svc
    {| ir_model := u16 "imagen-4.0-generate-001";
       ir_prompt := p_imageGenerationPrompt parsed;
       ir_numberOfImages := 1;
       ir_outputMimeType := u16 "image/jpeg";
       ir_aspectRatio := u16 "1:1" |};
  match generatedImages imageResponse with
  | Some imgs =>
      if bool_decide (0 < length imgs) then
        match imgs !! 0 with
        | Some g => mret {| imageUrl := u16 "data:image/jpeg;base64," ++ imageBytes (image g);
                            description := p_description parsed |}
        | None => throw (read_of_undefined (u16 "image"))
        end
      else throw (Error (u16 "No se pudo generar la imagen publicitaria."))
  | None => throw (Error (u16 "No se pudo generar la imagen publicitaria."))
  end.

(** The loop of [editAdImage] over the content parts: the first part with
    inline data ends it with a data URI, and falling out of it throws. *)
Fixpoint scan_parts (ps : list Part) : M jsstring :=
  match ps with
  | part :: ps' =>
      match inlineData part with
      | Some blob => mret (u16 "data:" ++ mimeType blob ++ u16 ";base64," ++ data blob)
      | None => scan_parts ps'
      end
  | [] => throw (Error (u16 "No se pudo editar la imagen."))
  end.

Definition editAdImage (svc : Service)
    (base64Image mimeType editPrompt : jsstring) : M jsstring :=
  _ ← getAiClient svc;
  response ← await_generateContent svc
    {| cr_model := u16 "gemini-2.5-flash-image";
       cr_parts := [ {| inlineData := Some {| data := base64Image; mimeType := mimeType |};
                        text_of := None |};
                     {| inlineData := None;
                        text_of := Some (u16 "En espa" ++ [241%N] ++ u16 "ol: " ++ editPrompt) |} ];
       cr_responseModalities := Some [IMAGE] |};
  match candidates response !! 0 with
  | Some candidate => scan_parts (parts (content candidate))
  | None => throw (read_of_undefined (u16 "content"))
  end.

End GeminiService.

(** ** src/App.tsx

    The handlers of the component. An event handler is a closure of the
    render in which it was created: what it reads of the React state is
    that render's snapshot, and what it sets goes to the state of the
    component. Handlers run one after the other, each to its end, so a
    handler starts from the snapshot of the current state.

    A [Generation] is a JavaScript object: the lists of generations hold
    references, [handleEdit] writes through one of them, and a saved
    project shares its generation objects with the state of the
    component. The heap below keeps the objects. *)

Module App.
Import GeminiService.

Inductive AppStep := upload | processing | result | editing.

(** A reference to a [Generation] object. *)
Definition loc := nat.

Definition Heap := loc → Generation.

Definition heap_set (h : Heap) (l : loc) (g : Generation) : Heap :=
  λ l', if decide (l' = l) then g else h l'.

Record SavedProject := {
  sp_id : jsstring;
  sp_generations : list loc;
  sp_timestamp : jsstring;
  sp_previewImage : jsstring }.

(** An entry of the JSON array kept in local storage: [JSON.stringify]
    writes the generation objects out by value. *)
Record StoredProject := {
  stored_id : jsstring;
  stored_generations : list Generation;
  stored_timestamp : jsstring;
  stored_previewImage : jsstring }.

Record File := { file_name : jsstring; file_type : jsstring; file_bytes : jsstring }.

(** The state variables of the component ([inputImagePreviews] and
    [isHistoryOpen] only feed the rendering and are left out). *)
Record AppState := {
  step : AppStep;
  error : jsstring;
  inputFiles : list File;
  initialPrompt : jsstring;
  selectedStyle : jsstring;
  generations : list loc;
  editPrompt : jsstring;
  currentProjectId : option jsstring;
  savedProjects : list SavedProject }.

Inductive effect :=
| ServiceEvent (e : event)
| LocalStorageSetItem (key : jsstring) (value : list StoredProject)
| ConsoleError (args : list jsstring).

(** The component in its browser: the object heap and its next free
    reference, the React state, local storage (each item stands for its
    JSON text), and what the component did to the outside, latest last. *)
Record World := {
  heap : Heap;
  next : loc;
  state : AppState;
  localStorage : gmap jsstring (list StoredProject);
  effects : list effect }.

(** What the outside answers while one handler runs. *)
Record Env := {
  svc : Service;
  date_toLocaleString : jsstring;   (* [new Date().toLocaleString('es-ES')] *)
  date_toISOString : jsstring;      (* [new Date().toISOString()] *)
  fileToBase64 : File → exn + Base64Image;
  (* [fetch(url)], [response.blob()], [new File] and [fileToBase64] *)
  fetch_fileToBase64 : jsstring → exn + Base64Image;
  (* what [localStorage.setItem] throws, as when the quota is exceeded *)
  setItem_throws : option exn }.

(** *** The setters of [useState] *)

Definition set_state (f : AppState → AppState) (w : World) : World :=
  {| heap := heap w; next := next w; state := f (state w);
     localStorage := localStorage w; effects := effects w |}.

Definition setStep (v : AppStep) : World → World :=
  set_state (λ s, {| step := v; error := error s; inputFiles := inputFiles s;
    initialPrompt := initialPrompt s; selectedStyle := selectedStyle s;
    generations := generations s; editPrompt := editPrompt s;
    currentProjectId := currentProjectId s; savedProjects := savedProjects s |}).

Definition setError (v : jsstring) : World → World :=
  set_state (λ s, {| step := step s; error := v; inputFiles := inputFiles s;
    initialPrompt := initialPrompt s; selectedStyle := selectedStyle s;
    generations := generations s; editPrompt := editPrompt s;
    currentProjectId := currentProjectId s; savedProjects := savedProjects s |}).

Definition setInputFiles (v : list File) : World → World :=
  set_state (λ s, {| step := step s; error := error s; inputFiles := v;
    initialPrompt := initialPrompt s; selectedStyle := selectedStyle s;
    generations := generations s; editPrompt := editPrompt s;
    currentProjectId := currentProjectId s; savedProjects := savedProjects s |}).

Definition setInitialPrompt (v : jsstring) : World → World :=
  set_state (λ s, {| step := step s; error := error s; inputFiles := inputFiles s;
    initialPrompt := v; selectedStyle := selectedStyle s;
    generations := generations s; editPrompt := editPrompt s;
    currentProjectId := currentProjectId s; savedProjects := savedProjects s |}).

Definition setSelectedStyle (v : jsstring) : World → World :=
  set_state (λ s, {| step := step s; error := error s; inputFiles := inputFiles s;
    initialPrompt := initialPrompt s; selectedStyle := v;
    generations := generations s; editPrompt := editPrompt s;
    currentProjectId := currentProjectId s; savedProjects := savedProjects s |}).

Definition setGenerations (v : list loc) : World → World :=
  set_state (λ s, {| step := step s; error := error s; inputFiles := inputFiles s;
    initialPrompt := initialPrompt s; selectedStyle := selectedStyle s;
    generations := v; editPrompt := editPrompt s;
    currentProjectId := currentProjectId s; savedProjects := savedProjects s |}).

Definition setEditPrompt (v : jsstring) : World → World :=
  set_state (λ s, {| step := step s; error := error s; inputFiles := inputFiles s;
    initialPrompt := initialPrompt s; selectedStyle := selectedStyle s;
    generations := generations s; editPrompt := v;
    currentProjectId := currentProjectId s; savedProjects := savedProjects s |}).

Definition setCurrentProjectId (v : option jsstring) : World → World :=
  set_state (λ s, {| step := step s; error := error s; inputFiles := inputFiles s;
    initialPrompt := initialPrompt s; selectedStyle := selectedStyle s;
    generations := generations s; editPrompt := editPrompt s;
    currentProjectId := v; savedProjects := savedProjects s |}).

Definition setSavedProjects (v : list SavedProject) : World → World :=
  set_state (λ s, {| step := step s; error := error s; inputFiles := inputFiles s;
    initialPrompt := initialPrompt s; selectedStyle := selectedStyle s;
    generations := generations s; editPrompt := editPrompt s;
    currentProjectId := currentProjectId s; savedProjects := v |}).

(** *** The heap, local storage and the console *)

Definition set_heap (h : Heap) (w : World) : World :=
  {| heap := h; next := next w; state := state w;
     localStorage := localStorage w; effects := effects w |}.

(** A new object, as an object literal or [JSON.parse] makes one. *)
Definition alloc (g : Generation) (w : World) : loc * World :=
  (next w, {| heap := heap_set (heap w) (next w) g; next := S (next w); state := state w;
              localStorage := localStorage w; effects := effects w |}).

Definition log (es : list effect) (w : World) : World :=
  {| heap := heap w; next := next w; state := state w;
     localStorage := localStorage w; effects := effects w ++ es |}.

Definition savedProjects_key : jsstring := u16 "savedProjects".

(** [JSON.stringify(projects)] *)
Definition stringify (h : Heap) (projects : list SavedProject) : list StoredProject :=
  (λ p, {| stored_id := sp_id p;
           stored_generations := h <$> sp_generations p;
           stored_timestamp := sp_timestamp p;
           stored_previewImage := sp_previewImage p |}) <$> projects.

(** [try { localStorage.setItem(key, value) } catch (e) { console.error(message, e) }] *)
Definition try_setItem (env : Env) (key : jsstring) (value : list StoredProject)
    (message : jsstring) (w : World) : World :=
  match setItem_throws env with
  | None =>
      {| heap := heap w; next := next w; state := state w;
         localStorage := <[key := value]> (localStorage w);
         effects := effects w ++ [LocalStorageSetItem key value] |}
  | Some e =>
      log [LocalStorageSetItem key value; ConsoleError [message]] w
  end.

(** The message of an [Error] instance, a fixed text for any other thrown value. *)
Definition errorMessage (err : exn) : jsstring :=
  match err with
  | Error m | TypeError m => m
  | Thrown _ => u16 "Ocurri" ++ [243%N] ++ u16 " un error desconocido."
  end.

(** *** The handlers *)

(** [saveCurrentProject], a callback of the render with snapshot [snap].
    The guard returns on an empty list and on a falsy identifier, which is
    [null] or the empty string. *)
Definition saveCurrentProject (snap : AppState) (env : Env)
    (updatedGenerations : list loc) (w : World) : World :=
  match updatedGenerations, currentProjectId snap with
  | first :: _, Some (c :: pid) =>
      let currentProjectId := c :: pid in
      let updatedProjects :=
        filter (λ p, sp_id p ≠ currentProjectId) (savedProjects snap) in
      let newProject :=
        {| sp_id := currentProjectId;
           sp_generations := updatedGenerations;
           sp_timestamp := date_toLocaleString env;
           sp_previewImage := imageUrl (heap w first) |} in
      let finalProjects := newProject :: updatedProjects in
      let w := setSavedProjects finalProjects w in
      try_setItem env savedProjects_key (stringify (heap w) finalProjects)
        (u16 "No se pudo guardar el proyecto autom" ++ [225%N] ++ u16 "ticamente:") w
  | _, _ => w
  end.

(** [handleDeleteProject] *)
Definition handleDeleteProject (env : Env) (projectId : jsstring) (w : World) : World :=
  let snap := state w in
  let updatedProjects := filter (λ p, sp_id p ≠ projectId) (savedProjects snap) in
  let w := setSavedProjects updatedProjects w in
  try_setItem env savedProjects_key (stringify (heap w) updatedProjects)
    (u16 "No se pudo eliminar el proyecto:") w.

(** The awaited calls in the [try] block of [handleEdit]: the image of the
    last generation is fetched and encoded, then sent to be edited. *)
Definition awaited_edit (env : Env) (imageUrl_last editPrompt : jsstring) : M jsstring :=
  match fetch_fileToBase64 env imageUrl_last with
  | inl e => throw e
  | inr img => editAdImage (svc env) (base64 img) (img_mimeType img) editPrompt
  end.

Definition log_trace {A} (r : M A) : World → World := log (ServiceEvent <$> trace r).

(** [handleEdit] *)
Definition handleEdit (env : Env) (w : World) : World :=
  let snap := state w in
  match editPrompt snap, last (generations snap) with
  | _ :: _, Some lastGeneration =>
      let w := setStep editing w in
      let w := setError [] w in
      let r := awaited_edit env (imageUrl (heap w lastGeneration)) (editPrompt snap) in
      let w := log_trace r w in
      match outcome r with
      | inr newImageUrl =>
          (* the copy holds the same objects, its last one is [lastGeneration] *)
          let updatedGenerations := generations snap in
          let w := set_heap (heap_set (heap w) lastGeneration
                     {| imageUrl := newImageUrl;
                        description := description (heap w lastGeneration) |}) w in
          let w := setGenerations updatedGenerations w in
          let w := saveCurrentProject snap env updatedGenerations w in
          let w := setEditPrompt [] w in
          setStep result w
      | inl err =>
          let w := setError (u16 "Error al editar imagen: " ++ errorMessage err) w in
          setStep result w
      end
  | _, _ => w
  end.

(** [Promise.all(inputFiles.map(fileToBase64))] *)
Fixpoint all_fileToBase64 (env : Env) (files : list File) : exn + list Base64Image :=
  match files with
  | [] => inr []
  | f :: files' =>
      match fileToBase64 env f with
      | inl e => inl e
      | inr img =>
          match all_fileToBase64 env files' with
          | inl e => inl e
          | inr imgs => inr (img :: imgs)
          end
      end
  end.

(** [callGenerateAPI]: the new generation object, or [null] after a failure. *)
Definition callGenerateAPI (snap : AppState) (env : Env) (w : World) : option loc * World :=
  let w := setError [] w in
  let r := match all_fileToBase64 env (inputFiles snap) with
           | inl e => throw e
           | inr base64Images =>
               generateAdContent (svc env) base64Images (initialPrompt snap) (selectedStyle snap)
           end in
  let w := log_trace r w in
  match outcome r with
  | inr generation =>
      let '(l, w) := alloc generation w in (Some l, w)
  | inl err =>
      let w := setError (u16 "Error al generar contenido: " ++ errorMessage err) w in
      let w := setStep upload w in
      (None, w)
  end.

(** [handleGenerate] *)
Definition handleGenerate (env : Env) (w : World) : World :=
  let snap := state w in
  match inputFiles snap with
  | [] => setError (u16 "Por favor, sube al menos una imagen.") w
  | _ :: _ =>
      let w := setStep processing w in
      let newId := date_toISOString env in
      let w := setCurrentProjectId (Some newId) w in
      let '(res, w) := callGenerateAPI snap env w in
      match res with
      | Some l =>
          let newGenerations := [l] in
          let w := setGenerations newGenerations w in
          let w := saveCurrentProject snap env newGenerations w in
          setStep result w
      | None => setCurrentProjectId None w
      end
  end.

(** [handleGenerateAnother] *)
Definition handleGenerateAnother (env : Env) (w : World) : World :=
  let snap := state w in
  let w := setStep processing w in
  let '(res, w) := callGenerateAPI snap env w in
  match res with
  | Some l =>
      let updatedGenerations := generations snap ++ [l] in
      let w := setGenerations updatedGenerations w in
      let w := saveCurrentProject snap env updatedGenerations w in
      setStep result w
  | None => w
  end.

(** [handleReset] *)
Definition handleReset (w : World) : World :=
  let w := setInputFiles [] w in
  let w := setInitialPrompt [] w in
  let w := setSelectedStyle Automatico_style w in
  let w := setGenerations [] w in
  let w := setEditPrompt [] w in
  let w := setError [] w in
  let w := setCurrentProjectId None w in
  setStep upload w.

(** [handleFileChange], with the files of a non-null [FileList]. *)
Definition handleFileChange (files : list File) (w : World) : World :=
  setInputFiles (inputFiles (state w) ++ files) w.

(** *** The first render and the effect that loads the history *)

Definition initial_state : AppState :=
  {| step := upload; error := []; inputFiles := []; initialPrompt := [];
     selectedStyle := Automatico_style; generations := []; editPrompt := [];
     currentProjectId := None; savedProjects := [] |}.

Definition initial_world (storage : gmap jsstring (list StoredProject)) : World :=
  {| heap := λ _, {| imageUrl := []; description := [] |}; next := 0;
     state := initial_state; localStorage := storage; effects := [] |}.

(** [JSON.parse] builds new objects. *)
Fixpoint parse_generations (gs : list Generation) (w : World) : list loc * World :=
  match gs with
  | [] => ([], w)
  | g :: gs' =>
      let '(l, w) := alloc g w in
      let '(ls, w) := parse_generations gs' w in
      (l :: ls, w)
  end.

Fixpoint parse_projects (ps : list StoredProject) (w : World) : list SavedProject * World :=
  match ps with
  | [] => ([], w)
  | p :: ps' =>
      let '(ls, w) := parse_generations (stored_generations p) w in
      let '(projects, w) := parse_projects ps' w in
      ({| sp_id := stored_id p; sp_generations := ls;
          sp_timestamp := stored_timestamp p;
          sp_previewImage := stored_previewImage p |} :: projects, w)
  end.

(** The effect of the first render. The stored item is what the
    component wrote, so it parses. *)
Definition mount (w : World) : World :=
  match localStorage w !! savedProjects_key with
  | Some storedProjects =>
      let '(projects, w) := parse_projects storedProjects w in
      setSavedProjects projects w
  | None => w
  end.

(** *** The runs of the component *)

Inductive action :=
| FileChange (files : list File)
| TypeInitialPrompt (v : jsstring)
| SelectStyle (v : jsstring)
| Generate
| GenerateAnother
| TypeEditPrompt (v : jsstring)
| Edit
| Reset
| DeleteProject (projectId : jsstring).

Definition handle (a : action) (env : Env) (w : World) : World :=
  match a with
  | FileChange files => handleFileChange files w
  | TypeInitialPrompt v => setInitialPrompt v w
  | SelectStyle v => setSelectedStyle v w
  | Generate => handleGenerate env w
  | GenerateAnother => handleGenerateAnother env w
  | TypeEditPrompt v => setEditPrompt v w
  | Edit => handleEdit env w
  | Reset => handleReset w
  | DeleteProject projectId => handleDeleteProject env projectId w
  end.

(** The worlds the component can be in between two handlers. *)
Inductive reachable : World → Prop :=
| reachable_mount storage : reachable (mount (initial_world storage))
| reachable_handle a env w : reachable w → reachable (handle a env w).

End App.

(** ** Inputs and requests named in the properties *)

Section Named.
Import GeminiService.

(** The response text of the specification's example. 55356 and 57225 are
    the surrogate pair of the party popper, 10 is the line feed. *)
Definition example_response : jsstring :=
  u16 "---TEXTO_A_INTEGRAR---" ++ [10%N] ++ u16 "Foo" ++ [10%N]
    ++ u16 "---DESCRIPCION---" ++ [10%N] ++ u16 "Great sale! " ++ [55356%N; 57225%N] ++ [10%N]
    ++ u16 "---PROMPT---" ++ [10%N] ++ u16 "A photo of a sale banner".

(** A response that repeats the second delimiter. *)
Definition repeated_prompt_response : jsstring :=
  u16 "---DESCRIPCION---a---PROMPT---b---PROMPT---c".

(** The first request of [generateAdContent]. *)
Definition description_request (images : list Base64Image) (userPrompt style : jsstring) :
    ContentRequest :=
  {| cr_model := u16 "gemini-2.5-flash";
     cr_parts :=
       ((λ img, {| inlineData := Some {| data := base64 img; mimeType := img_mimeType img |};
                   text_of := None |}) <$> images)
       ++ [ {| inlineData := None;
               text_of := Some (descriptionGeneratorPrompt userPrompt style) |} ];
     cr_responseModalities := None |}.

(** The request for one square JPEG image from [prompt]. *)
Definition image_request (prompt : jsstring) : ImagesRequest :=
  {| ir_model := u16 "imagen-4.0-generate-001"; ir_prompt := prompt;
     ir_numberOfImages := 1; ir_outputMimeType := u16 "image/jpeg";
     ir_aspectRatio := u16 "1:1" |}.

Definition image_error : exn := Error (u16 "No se pudo generar la imagen publicitaria.").

Definition edit_error : exn := Error (u16 "No se pudo editar la imagen.").

(** The edit request of [editAdImage]. *)
Definition edit_request (base64Image mimeType editPrompt : jsstring) : ContentRequest :=
  {| cr_model := u16 "gemini-2.5-flash-image";
     cr_parts := [ {| inlineData := Some {| data := base64Image; mimeType := mimeType |};
                      text_of := None |};
                   {| inlineData := None;
                      text_of := Some (u16 "En espa" ++ [241%N] ++ u16 "ol: " ++ editPrompt) |} ];
     cr_responseModalities := Some [IMAGE] |}.

(** A service that answers the example of the specification, with one
    candidate whose second part is an inline PNG, and one generated image. *)
Definition example_content_response : GenerateContentResponse :=
  {| text := example_response;
     candidates :=
       [ {| content := {| parts :=
              [ {| inlineData := None; text_of := Some (u16 "Listo.") |};
                {| inlineData := Some {| data := u16 "iVBORw0KGgo="; mimeType := u16 "image/png" |};
                   text_of := None |} ] |} |} ] |}.

Definition example_service : Service :=
  {| API_KEY := Some (u16 "k3y");
     models_generateContent := λ _, inr example_content_response;
     models_generateImages := λ _,
       inr {| generatedImages := Some [ {| image := {| imageBytes := u16 "/9j/4AAQSkZJRg==" |} |} ] |} |}.

(** A service whose content endpoint resolves without any candidate, as it
    does when the request was blocked. *)
Definition blocked_service : Service :=
  {| API_KEY := Some (u16 "k3y");
     models_generateContent := λ _, inr {| text := []; candidates := [] |};
     models_generateImages := λ _, inr {| generatedImages := None |} |}.

End Named.

Section NamedApp.
Import GeminiService App.

(** The words of the specification for a deletion: every entry with the
    identifier is left out, every other entry is kept, in its order. *)
Inductive without_id (projectId : jsstring) : list SavedProject → list SavedProject → Prop :=
| without_nil : without_id projectId [] []
| without_drop p l l' :
    sp_id p = projectId → without_id projectId l l' → without_id projectId (p :: l) l'
| without_keep p l l' :
    sp_id p ≠ projectId → without_id projectId l l' → without_id projectId (p :: l) (p :: l').

(** A save of the generations [gens] while [projectId] is the current
    project: the callback of the render that shows this project. *)
Definition save_as (projectId : jsstring) (gens : list loc) (env : Env) (w : World) : World :=
  saveCurrentProject (state (setCurrentProjectId (Some projectId) w)) env gens w.

(** Saves one after the other, the first of the list first. *)
Definition save_all (saves : list (jsstring * list loc * Env)) (w : World) : World :=
  foldl (λ w s, save_as s.1.1 s.1.2 s.2 w) w saves.

(** A browser in which every call goes through. *)
Definition example_env : Env :=
  {| svc := example_service;
     date_toLocaleString := u16 "2/11/2026, 20:44:00";
     date_toISOString := u16 "2026-11-02T19:44:00.000Z";
     fileToBase64 := λ f, inr {| base64 := file_bytes f; img_mimeType := file_type f |};
     fetch_fileToBase64 := λ _,
       inr {| base64 := u16 "/9j/4AAQSkZJRg=="; img_mimeType := u16 "image/jpeg" |};
     setItem_throws := None |}.

(** A browser in which the edit request is turned down. *)
Definition blocked_env : Env :=
  {| svc := blocked_service;
     date_toLocaleString := u16 "2/11/2026, 20:50:00";
     date_toISOString := u16 "2026-11-02T19:50:00.000Z";
     fileToBase64 := λ f, inr {| base64 := file_bytes f; img_mimeType := file_type f |};
     fetch_fileToBase64 := λ _,
       inr {| base64 := u16 "/9j/4AAQSkZJRg=="; img_mimeType := u16 "image/jpeg" |};
     setItem_throws := None |}.

Definition example_file : File :=
  {| file_name := u16 "foto.jpg"; file_type := u16 "image/jpeg"; file_bytes := u16 "/9j/4AAQ" |}.

(** A run of the component: a photo is chosen, two variations are
    generated, and an edit instruction is typed. *)
Definition example_run : World :=
  handle (TypeEditPrompt (u16 "cambia el fondo a una playa")) example_env
    (handle GenerateAnother example_env
       (handle Generate example_env
          (handle (FileChange [example_file]) example_env
             (mount (initial_world ∅))))).

(** The same browser a little later. *)
Definition later_env : Env :=
  {| svc := example_service;
     date_toLocaleString := u16 "2/11/2026, 21:05:00";
     date_toISOString := u16 "2026-11-02T20:05:00.000Z";
     fileToBase64 := fileToBase64 example_env;
     fetch_fileToBase64 := fetch_fileToBase64 example_env;
     setItem_throws := None |}.

(** The run goes on: the edit is applied, a new advertisement is started
    and gets two variations of its own. *)
Definition example_history : World :=
  handle GenerateAnother later_env
    (handle Generate later_env
       (handle (FileChange [example_file]) later_env
          (handle Reset example_env
             (handle Edit example_env example_run)))).

(** The generations of the state are distinct objects, all allocated. *)
Definition generations_wf (w : World) : Prop :=
  NoDup (generations (state w)) ∧ Forall (λ l, l < next w) (generations (state w)).

End NamedApp.

(** ** What the further properties name *)

Section NamedMore.
Import GeminiService App.

(** The error of [getAiClient]. *)
Definition key_error : exn :=
  Error (u16 "API_KEY no est" ++ [225%N]
           ++ u16 " configurada. Aseg" ++ [250%N]
           ++ u16 "rate de que la variable de entorno API_KEY est" ++ [233%N]
           ++ u16 " disponible.").

(** [out] is [raw] without the whitespace around it. *)
Definition trimmed_of (raw out : jsstring) : Prop :=
  ∃ pre post,
    raw = pre ++ out ++ post
    ∧ Forall (λ c, is_ws c = true) pre ∧ Forall (λ c, is_ws c = true) post
    ∧ (∀ c, head out = Some c → is_ws c = false)
    ∧ (∀ c, last out = Some c → is_ws c = false).

(** The awaited calls in the [try] block of [callGenerateAPI], for the
    render with snapshot [snap]. *)
Definition awaited_generation (env : Env) (snap : AppState) : M Generation :=
  match all_fileToBase64 env (inputFiles snap) with
  | inl e => throw e
  | inr base64Images =>
      generateAdContent (svc env) base64Images (initialPrompt snap) (selectedStyle snap)
  end.

(** Handlers one after the other, the first of the list first. *)
Definition run (steps : list (action * Env)) (w : World) : World :=
  foldl (λ w s, handle s.1 s.2 w) w steps.






(** A history of one project in local storage, from an earlier visit. *)
Definition earlier_storage : gmap jsstring (list StoredProject) :=
  {[ savedProjects_key :=
       [ {| stored_id := u16 "2026-10-31T09:00:00.000Z";
            stored_generations :=
              [ {| imageUrl := u16 "data:image/jpeg;base64,/9j/2wBDAAYEBQ==";
                   description := u16 "Oferta de otono" |} ];
            stored_timestamp := u16 "31/10/2026, 10:00:00";
            stored_previewImage := u16 "data:image/jpeg;base64,/9j/2wBDAAYEBQ==" |} ] ]}.

(** The steps of the example run and of what follows it in the example
    history. *)
Definition example_steps : list (action * Env) :=
  [ (FileChange [example_file], example_env);
    (Generate, example_env);
    (GenerateAnother, example_env);
    (TypeEditPrompt (u16 "cambia el fondo a una playa"), example_env);
    (Edit, example_env);
    (Reset, example_env);
    (FileChange [example_file], later_env);
    (Generate, later_env);
    (GenerateAnother, later_env) ].

(** A service without a credential. *)
Definition keyless_service : Service :=
  {| API_KEY := None;
     models_generateContent := models_generateContent example_service;
     models_generateImages := models_generateImages example_service |}.

(** A service whose content endpoint rejects. *)
Definition rejecting_service : Service :=
  {| API_KEY := Some (u16 "k3y");
     models_generateContent := λ _, inl (Error (u16 "503 Service Unavailable"));
     models_generateImages := models_generateImages example_service |}.


(** A browser whose local storage is full. *)
Definition full_env : Env :=
  {| svc := example_service;
     date_toLocaleString := u16 "2/11/2026, 21:30:00";
     date_toISOString := u16 "2026-11-02T20:30:00.000Z";
     fileToBase64 := fileToBase64 example_env;
     fetch_fileToBase64 := fetch_fileToBase64 example_env;
     setItem_throws := Some (Error (u16 "QuotaExceededError")) |}.

(** The component after a photo was chosen, before anything is generated. *)
Definition photo_chosen : World :=
  handle (FileChange [example_file]) example_env (mount (initial_world ∅)).

(** The example run after its edit. *)
Definition edited_run : World := handle Edit example_env example_run.

(** The example run after a variation that failed: the form is shown
    again and the project is still the current one. *)
Definition failed_variation : World := handle GenerateAnother blocked_env example_run.

End NamedMore.

(** * Properties *)

(** ** Strings and the matcher *)

Section StringFacts.
Import Regex.

Lemma trimStart_length s : length (trimStart s) ≤ length s.
Proof. induction s as [|c s IH]; simpl; [lia|]. destruct (is_ws c); simpl; lia. Qed.

Lemma trim_length s : length (trim s) ≤ length s.
Proof.
  unfold trim, trimEnd. rewrite length_reverse.
  etrans; [apply trimStart_length|]. rewrite length_reverse. apply trimStart_length.
Qed.

Lemma occurs_at_drop (l s : jsstring) i j :
  occurs_at l (drop i s) j ↔ occurs_at l s (i + j).
Proof. unfold occurs_at. by rewrite drop_drop. Qed.

Lemma occurs_at_app (l pre s : jsstring) : occurs_at l (pre ++ l ++ s) (length pre).
Proof. unfold occurs_at. by rewrite drop_app_length, take_app_length. Qed.

Lemma match_lit_occ (l : jsstring) q s :
  occurs_at l s 0 → match_here (lit l ++ q) s = match_here q (drop (length l) s).
Proof.
  unfold occurs_at. revert s. induction l as [|c l IH]; intros s H; simpl in *; [done|].
  destruct s as [|c' s]; [done|]. simpl in H. simplify_eq.
  rewrite decide_True by done. apply IH. by rewrite drop_0.
Qed.

Lemma match_lit_nocc (l : jsstring) q s :
  ¬ occurs_at l s 0 → match_here (lit l ++ q) s = None.
Proof.
  unfold occurs_at. revert s. induction l as [|c l IH]; intros s H; simpl in *; [done|].
  destruct s as [|c' s]; [done|]. case_decide; [|done]. subst c'.
  apply IH. rewrite drop_0 in *. simpl in H. congruence.
Qed.

Lemma star_nil q :
  match_here (CaptureAnyStar :: q) [] = caps ← match_here q []; Some ([] :: caps).
Proof. done. Qed.

Lemma star_cons q c s :
  match_here (CaptureAnyStar :: q) (c :: s) =
    match match_here (CaptureAnyStar :: q) s with
    | Some (cap :: caps) => Some ((c :: cap) :: caps)
    | _ => caps ← match_here q (c :: s); Some ([] :: caps)
    end.
Proof. done. Qed.

(** The star fails only when the rest of the pattern fails at every index. *)
Lemma star_None q s :
  (∀ j, j ≤ length s → match_here q (drop j s) = None) →
  match_here (CaptureAnyStar :: q) s = None.
Proof.
  induction s as [|c s IH]; intros H;
    pose proof (H 0 ltac:(lia)) as H0; rewrite drop_0 in H0.
  - by rewrite star_nil, H0.
  - rewrite star_cons, IH, H0; [done|].
    intros j Hj. apply (H (S j)). simpl; lia.
Qed.

(** The star is greedy: it captures up to the last index at which the rest
    of the pattern matches. *)
Lemma star_Some q s k caps :
  k ≤ length s →
  match_here q (drop k s) = Some caps →
  (∀ j, k < j ≤ length s → match_here q (drop j s) = None) →
  match_here (CaptureAnyStar :: q) s = Some (take k s :: caps).
Proof.
  revert k. induction s as [|c s IH]; intros k Hk Hm Hlast.
  - assert (k = 0) as -> by (simpl in Hk; lia).
    rewrite star_nil. simpl in Hm. by rewrite Hm.
  - rewrite star_cons. destruct k as [|k].
    + rewrite star_None.
      * rewrite drop_0 in Hm. by rewrite Hm.
      * intros j Hj. apply (Hlast (S j)). simpl; lia.
    + rewrite (IH k); [done| simpl in Hk; lia | done |].
      intros j Hj. apply (Hlast (S j)). simpl; lia.
Qed.

(** [exec] returns the match at the first index that has one. *)
Lemma exec_first p s i caps :
  (∀ j, j < i → match_here p (drop j s) = None) →
  match_here p (drop i s) = Some caps →
  exec p s = Some caps.
Proof.
  revert i. induction s as [|c s IH]; intros i Hbefore Hm.
  - rewrite drop_nil in Hm. simpl. by rewrite Hm.
  - destruct i as [|i].
    + rewrite drop_0 in Hm. simpl. by rewrite Hm.
    + pose proof (Hbefore 0 ltac:(lia)) as H0. rewrite drop_0 in H0.
      simpl. rewrite H0. apply (IH i); [|done].
      intros j Hj. apply (Hbefore (S j)). lia.
Qed.


Lemma occurs_at_length (l s : jsstring) i :
  l ≠ [] → occurs_at l s i → i + length l ≤ length s.
Proof.
  unfold occurs_at. intros Hne H. apply (f_equal length) in H.
  rewrite length_take, length_drop in H.
  destruct l; [done|]. cbn [length] in *. lia.
Qed.

Lemma substring_between (pre l1 d rest : jsstring) :
  substring (length pre + length l1) (length (pre ++ l1 ++ d)) (pre ++ l1 ++ d ++ rest) = d.
Proof.
  unfold substring. rewrite !length_app.
  replace (length pre + (length l1 + length d) - (length pre + length l1))
    with (length d) by lia.
  rewrite (app_assoc pre l1), drop_app_length' by (rewrite length_app; lia).
  apply take_app_length.
Qed.

Lemma drop_behind (pre l1 d l2 rest : jsstring) :
  drop (length (pre ++ l1 ++ d) + length l2) (pre ++ l1 ++ d ++ l2 ++ rest) = rest.
Proof.
  replace (pre ++ l1 ++ d ++ l2 ++ rest) with ((pre ++ l1 ++ d ++ l2) ++ rest)
    by (by rewrite <- !app_assoc).
  apply drop_app_length'. rewrite !length_app. lia.
Qed.

Lemma least_index (P : nat → Prop) `{!∀ j, Decision (P j)} n :
  P n → ∃ i, i ≤ n ∧ P i ∧ ∀ j, j < i → ¬ P j.
Proof.
  assert (∀ m, (∀ j, j < m → ¬ P j) ∨ ∃ i, i < m ∧ P i ∧ ∀ j, j < i → ¬ P j) as Hsearch.
  { induction m as [|m [Hnone|(i & Hi & HP & Hmin)]].
    - left. intros j Hj. lia.
    - destruct (decide (P m)) as [HP|HP].
      + right. exists m. split; [lia|]. by split.
      + left. intros j Hj. destruct (decide (j = m)) as [->|]; [done|]. apply Hnone. lia.
    - right. exists i. split; [lia|]. by split. }
  intros Hn. destruct (Hsearch (S n)) as [Hnone|(i & Hi & HP & Hmin)].
  - exfalso. apply (Hnone n); [lia|done].
  - exists i. split; [lia|]. by split.
Qed.

Lemma greatest_index (P : nat → Prop) `{!∀ j, Decision (P j)} bound n :
  (∀ j, P j → j ≤ bound) → P n → ∃ k, n ≤ k ∧ P k ∧ ∀ j, k < j → ¬ P j.
Proof.
  intros Hbound Hn. pose proof (Hbound _ Hn) as Hle.
  destruct (least_index (λ j, P (bound - j)) (bound - n)) as (i & Hi & HP & Hmin).
  { by replace (bound - (bound - n)) with n by lia. }
  exists (bound - i). split; [lia|]. split; [done|].
  intros j Hj HPj. pose proof (Hbound _ HPj).
  apply (Hmin (bound - j)); [lia|]. by replace (bound - (bound - j)) with j by lia.
Qed.

#[local] Instance occurs_at_dec (l s : jsstring) i : Decision (occurs_at l s i).
Proof. unfold occurs_at. apply _. Defined.

(** An occurrence has a first one at or before it, and, for a literal
    that is not empty, a last one at or behind it. *)
Lemma first_occurrence (l s : jsstring) n :
  occurs_at l s n → ∃ i, i ≤ n ∧ occurs_at l s i ∧ ∀ j, j < i → ¬ occurs_at l s j.
Proof. apply (least_index (occurs_at l s)). Qed.

Lemma last_occurrence (l s : jsstring) n :
  l ≠ [] → occurs_at l s n → ∃ k, n ≤ k ∧ occurs_at l s k ∧ ∀ j, k < j → ¬ occurs_at l s j.
Proof.
  intros Hne. apply (greatest_index (occurs_at l s) (length s)).
  intros j Hj. pose proof (occurs_at_length _ _ _ Hne Hj). lia.
Qed.

(** A literal, the capturing group, a literal: the group spans from the
    end of the first occurrence of [l1] to the last occurrence of [l2]
    behind it. *)
Lemma exec_lit_group_lit (l1 l2 t : jsstring) i k :
  l2 ≠ [] →
  occurs_at l1 t i → (∀ j, j < i → ¬ occurs_at l1 t j) →
  occurs_at l2 t k → i + length l1 ≤ k → (∀ j, k < j → ¬ occurs_at l2 t j) →
  exec (lit l1 ++ [CaptureAnyStar] ++ lit l2) t = Some [substring (i + length l1) k t].
Proof.
  intros Hne Hi Hfirst Hk Hik Hlast.
  pose proof (occurs_at_length _ _ _ Hne Hk) as Hlen.
  apply (exec_first _ _ i).
  - intros j Hj. apply match_lit_nocc. rewrite occurs_at_drop, Nat.add_0_r. by apply Hfirst.
  - rewrite match_lit_occ by (by rewrite occurs_at_drop, Nat.add_0_r).
    rewrite drop_drop. simpl. rewrite <- (app_nil_r (lit l2)).
    unfold substring. apply star_Some.
    + rewrite length_drop. lia.
    + rewrite drop_drop. replace (i + length l1 + (k - (i + length l1))) with k by lia.
      rewrite match_lit_occ; [done|]. by rewrite occurs_at_drop, Nat.add_0_r.
    + intros j [Hj _]. rewrite drop_drop. apply match_lit_nocc.
      rewrite occurs_at_drop, Nat.add_0_r. apply Hlast. lia.
Qed.

(** A literal and the capturing group: the group is everything behind the
    first occurrence of [l]. *)
Lemma exec_lit_group (l t : jsstring) k :
  occurs_at l t k → (∀ j, j < k → ¬ occurs_at l t j) →
  exec (lit l ++ [CaptureAnyStar]) t = Some [drop (k + length l) t].
Proof.
  intros Hk Hfirst. apply (exec_first _ _ k).
  - intros j Hj. apply match_lit_nocc. rewrite occurs_at_drop, Nat.add_0_r. by apply Hfirst.
  - rewrite match_lit_occ by (by rewrite occurs_at_drop, Nat.add_0_r).
    rewrite drop_drop.
    rewrite (star_Some [] _ (length (drop (k + length l) t)) []); [|done|..].
    + by rewrite firstn_all.
    + done.
    + intros j Hj. lia.
Qed.


End StringFacts.

(** ** The parsing step of [generateAdContent] *)

Section ParseStep.
Import Regex GeminiService.

Lemma PROMPT_ne : PROMPT ≠ [].
Proof. done. Qed.

Lemma parse_step_matched t style d p :
  descriptionMatch t = Some [d] → promptMatch t = Some [p] →
  parse_step t style =
    Run [] (inr {| p_description := trim d; p_imageGenerationPrompt := trim p |}).
Proof.
  unfold descriptionMatch, promptMatch, parse_step. by intros -> ->.
Qed.

Lemma parse_step_indices (responseText style : jsstring) (i k k1 : nat) :
  occurs_at DESCRIPCION responseText i →
  (∀ j, j < i → ¬ occurs_at DESCRIPCION responseText j) →
  occurs_at PROMPT responseText k →
  i + length DESCRIPCION ≤ k →
  (∀ j, k < j → ¬ occurs_at PROMPT responseText j) →
  occurs_at PROMPT responseText k1 →
  (∀ j, j < k1 → ¬ occurs_at PROMPT responseText j) →
  parse_step responseText style =
    Run [] (inr {| p_description :=
                     trim (substring (i + length DESCRIPCION) k responseText);
                   p_imageGenerationPrompt :=
                     trim (drop (k1 + length PROMPT) responseText) |}).
Proof.
  intros Hi Hfirst Hk Hik Hlast Hk1 Hfirst1. apply parse_step_matched.
  - by apply exec_lit_group_lit.
  - by apply exec_lit_group.
Qed.

(** C1, as the code has it. In every response text that contains
    ---DESCRIPCION--- followed by ---PROMPT---, the description is the text
    from the end of the first ---DESCRIPCION--- (index [i]) to the last
    ---PROMPT--- behind it (index [k]), and the image prompt is the text
    behind the first ---PROMPT--- of the response (index [k1]), both
    trimmed, and no warning is logged. When ---DESCRIPCION--- does not
    occur earlier and ---PROMPT--- occurs nowhere else, these are the text
    between the two delimiters and the text after the second. The example
    of the specification yields the description and the prompt it names. *)
Theorem parse_step_delimited :
  (∀ (pre d p style : jsstring),
     let responseText := pre ++ DESCRIPCION ++ d ++ PROMPT ++ p in
     ∃ i k k1,
       (occurs_at DESCRIPCION responseText i
        ∧ ∀ j, j < i → ¬ occurs_at DESCRIPCION responseText j)
       ∧ (occurs_at PROMPT responseText k ∧ i + length DESCRIPCION ≤ k
          ∧ ∀ j, k < j → ¬ occurs_at PROMPT responseText j)
       ∧ (occurs_at PROMPT responseText k1
          ∧ ∀ j, j < k1 → ¬ occurs_at PROMPT responseText j)
       ∧ parse_step responseText style =
           Run [] (inr {| p_description :=
                            trim (substring (i + length DESCRIPCION) k responseText);
                          p_imageGenerationPrompt :=
                            trim (drop (k1 + length PROMPT) responseText) |}))
  ∧ (∀ (pre d p style : jsstring),
       let responseText := pre ++ DESCRIPCION ++ d ++ PROMPT ++ p in
       (∀ j, j < length pre → ¬ occurs_at DESCRIPCION responseText j) →
       (∀ j, occurs_at PROMPT responseText j → j = length (pre ++ DESCRIPCION ++ d)) →
       parse_step responseText style =
         Run [] (inr {| p_description := trim d; p_imageGenerationPrompt := trim p |}))
  ∧ (∀ style,
       parse_step example_response style =
         Run [] (inr {| p_description := u16 "Great sale! " ++ [55356%N; 57225%N];
                        p_imageGenerationPrompt := u16 "A photo of a sale banner" |})).
Proof.
  split; [|split].
  - intros pre d p style t.
    assert (occurs_at DESCRIPCION t (length pre)) as HD by apply occurs_at_app.
    assert (occurs_at PROMPT t (length (pre ++ DESCRIPCION ++ d))) as HP.
    { subst t. rewrite (app_assoc DESCRIPCION), (app_assoc pre). apply occurs_at_app. }
    destruct (first_occurrence _ _ _ HD) as (i & Hi & HDi & HDfirst).
    destruct (last_occurrence _ _ _ PROMPT_ne HP) as (k & Hk & HPk & HPlast).
    destruct (first_occurrence _ _ _ HP) as (k1 & Hk1 & HPk1 & HPfirst).
    assert (i + length DESCRIPCION ≤ k) as Hik by (rewrite !length_app in Hk; lia).
    exists i, k, k1. repeat split; try done. by apply parse_step_indices.
  - intros pre d p style t HDfirst HPonly.
    assert (occurs_at DESCRIPCION t (length pre)) as HD by apply occurs_at_app.
    assert (occurs_at PROMPT t (length (pre ++ DESCRIPCION ++ d))) as HP.
    { subst t. rewrite (app_assoc DESCRIPCION), (app_assoc pre). apply occurs_at_app. }
    rewrite (parse_step_indices t style (length pre) (length (pre ++ DESCRIPCION ++ d))
               (length (pre ++ DESCRIPCION ++ d))); try done.
    + subst t. by rewrite substring_between, drop_behind.
    + rewrite !length_app. lia.
    + intros j Hj Hocc. apply HPonly in Hocc. lia.
    + intros j Hj Hocc. apply HPonly in Hocc. lia.
  - intros style. vm_compute. reflexivity.
Qed.



(** No index at or above the length of a text minus the literal has an
    occurrence; the remaining indices are checked one by one. *)
Tactic Notation "no_occurrence_from" integer(n) :=
  let j := fresh "j" in let Hj := fresh "Hj" in let Hocc := fresh "Hocc" in
  intros j Hj Hocc;
  pose proof (occurs_at_length _ _ _ PROMPT_ne Hocc) as Hlen;
  change (length PROMPT) with 12 in Hlen;
  match type of Hlen with
  | _ ≤ length ?t => let v := eval vm_compute in (length t) in
                     change (length t) with v in Hlen
  end;
  do n (destruct j as [|j]; [first [by vm_compute in Hocc | exfalso; lia]|]);
  exfalso; lia.

Tactic Notation "no_occurrence_below" integer(n) :=
  let j := fresh "j" in let Hj := fresh "Hj" in let Hocc := fresh "Hocc" in
  intros j Hj Hocc;
  do n (destruct j as [|j]; [by vm_compute in Hocc|]); lia.

(** C1 at the response with a repeated ---PROMPT---: the description runs
    to the last one and the prompt starts behind the first one. *)
Lemma parse_step_delimited_witness :
  occurs_at DESCRIPCION repeated_prompt_response 0
  ∧ occurs_at PROMPT repeated_prompt_response 31
  ∧ (∀ j, 31 < j → ¬ occurs_at PROMPT repeated_prompt_response j)
  ∧ occurs_at PROMPT repeated_prompt_response 18
  ∧ (∀ j, j < 18 → ¬ occurs_at PROMPT repeated_prompt_response j)
  ∧ parse_step repeated_prompt_response [] =
      Run [] (inr {| p_description := u16 "a---PROMPT---b";
                     p_imageGenerationPrompt := u16 "b---PROMPT---c" |}).
Proof.
  assert (H31 : ∀ j, 31 < j → ¬ occurs_at PROMPT repeated_prompt_response j)
    by no_occurrence_from 33.
  assert (H18 : ∀ j, j < 18 → ¬ occurs_at PROMPT repeated_prompt_response j)
    by no_occurrence_below 18.
  split; [done|]. split; [done|]. split; [done|]. split; [done|]. split; [done|].
  destruct (proj1 parse_step_delimited [] (u16 "a") (u16 "b---PROMPT---c") [])
    as (i & k & k1 & [HDi HDfirst] & (HPk & Hik & HPlast) & [HPk1 HPfirst] & Hparse).
  change ([] ++ DESCRIPCION ++ u16 "a" ++ PROMPT ++ u16 "b---PROMPT---c")
    with repeated_prompt_response in *.
  assert (i = 0) as ->.
  { destruct (decide (0 < i)) as [Hlt|]; [|lia]. by destruct (HDfirst 0 Hlt). }
  assert (k = 31) as ->.
  { destruct (decide (31 < k)) as [Hlt|]; [by destruct (H31 k Hlt)|].
    destruct (decide (k < 31)) as [Hlt|]; [|lia]. by destruct (HPlast 31 Hlt). }
  assert (k1 = 18) as ->.
  { destruct (decide (k1 < 18)) as [Hlt|]; [by destruct (H18 k1 Hlt)|].
    destruct (decide (18 < k1)) as [Hlt|]; [|lia]. by destruct (HPfirst 18 Hlt). }
  rewrite Hparse. vm_compute. reflexivity.
Defined.

(** The claim C1 as the specification words it fails on that response: it
    contains ---DESCRIPCION--- followed by ---PROMPT---, and however it is
    cut into a text before the first delimiter, a text between the two and
    a text after the second, the step does not return the two trimmed
    texts. *)
Lemma parse_step_repeated_prompt :
  (∃ pre d p, repeated_prompt_response = pre ++ DESCRIPCION ++ d ++ PROMPT ++ p)
  ∧ ¬ ∃ pre d p,
        repeated_prompt_response = pre ++ DESCRIPCION ++ d ++ PROMPT ++ p
        ∧ parse_step repeated_prompt_response [] =
            Run [] (inr {| p_description := trim d; p_imageGenerationPrompt := trim p |}).
Proof.
  split.
  - by exists [], (u16 "a"), (u16 "b---PROMPT---c").
  - intros (pre & d & p & Heq & Hr).
    assert (parse_step repeated_prompt_response [] =
              Run [] (inr {| p_description := u16 "a---PROMPT---b";
                             p_imageGenerationPrompt := u16 "b---PROMPT---c" |})) as Hv
      by (vm_compute; reflexivity).
    rewrite Hv in Hr. injection Hr as Hd Hp.
    apply (f_equal length) in Heq, Hd, Hp.
    rewrite !length_app in Heq.
    pose proof (trim_length d). pose proof (trim_length p).
    change (length repeated_prompt_response) with 44 in Heq.
    change (length DESCRIPCION) with 17 in Heq.
    change (length PROMPT) with 12 in Heq.
    change (length (u16 "a---PROMPT---b")) with 14 in Hd.
    change (length (u16 "b---PROMPT---c")) with 14 in Hp.
    lia.
Qed.


End ParseStep.

(** ** The two service functions *)

Section ServiceFacts.
Import Regex GeminiService.

Lemma parse_step_total t style :
  ∃ warnings parsed, parse_step t style = Run warnings (inr parsed).
Proof.
  unfold parse_step.
  destruct (exec description_re t), (exec prompt_re t); by eexists _, _.
Qed.

(** C7: once the first request has resolved with a response text, the
    second request is the image request for the prompt the parsing step
    extracted, for one image of ratio 1:1, and nothing else is requested.
    If it resolves with at least one generated image, the result pairs the
    JPEG data URI of the first image's bytes with the extracted
    description; if it resolves without images, the one generic error is
    thrown. *)
Theorem generateAdContent_image (svc : Service) (images : list Base64Image)
    (userPrompt style key : jsstring) (response : GenerateContentResponse) :
  API_KEY svc = Some key → key ≠ [] →
  models_generateContent svc (description_request images userPrompt style) = inr response →
  ∃ warnings parsed,
    parse_step (text response) style = Run warnings (inr parsed)
    ∧ let run := generateAdContent svc images userPrompt style in
      trace run =
        [CallGenerateContent (description_request images userPrompt style)]
          ++ warnings
          ++ [CallGenerateImages (image_request (p_imageGenerationPrompt parsed))]
      ∧ ∀ imageResponse,
          models_generateImages svc (image_request (p_imageGenerationPrompt parsed))
            = inr imageResponse →
          (∀ g gs, generatedImages imageResponse = Some (g :: gs) →
             outcome run =
               inr {| imageUrl := u16 "data:image/jpeg;base64," ++ imageBytes (image g);
                      description := p_description parsed |})
          ∧ (generatedImages imageResponse = None ∨ generatedImages imageResponse = Some [] →
             outcome run = inl image_error).
Proof.
  intros Hkey Hne Hresp.
  destruct (parse_step_total (text response) style) as (warnings & parsed & Hparse).
  exists warnings, parsed. split; [done|].
  unfold generateAdContent, getAiClient. rewrite Hkey.
  destruct key as [|c key]; [done|].
  fold (description_request images userPrompt style).
  unfold mbind, M_bind, await_generateContent; cbn [outcome trace]. rewrite Hresp.
  cbn [outcome trace]. rewrite Hparse. cbn [outcome trace].
  fold (image_request (p_imageGenerationPrompt parsed)).
  unfold await_generateImages, mret, M_ret, throw; cbn [outcome trace].
  split.
  - destruct (models_generateImages svc _) as [e|[[[|g gs]|]]];
      cbn [outcome trace generatedImages]; by rewrite ?app_nil_r.
  - intros imageResponse ->. cbn [outcome trace]. split.
    + by intros g gs ->.
    + by intros [-> | ->].
Qed.

(** C7 with the service that answers the example of the specification. *)
Lemma generateAdContent_image_witness :
  API_KEY example_service = Some (u16 "k3y")
  ∧ outcome (generateAdContent example_service [] [] Automatico_style) =
      inr {| imageUrl := u16 "data:image/jpeg;base64,/9j/4AAQSkZJRg==";
             description := u16 "Great sale! " ++ [55356%N; 57225%N] |}.
Proof.
  split; [done|].
  destruct (generateAdContent_image example_service [] [] Automatico_style (u16 "k3y")
              example_content_response)
    as (warnings & parsed & Hparse & _ & Himage); [done..|].
  destruct (Himage _ eq_refl) as [Hfirst _].
  rewrite (Hfirst _ _ eq_refl). f_equal. f_equal.
  apply (f_equal outcome) in Hparse. vm_compute in Hparse. by injection Hparse as <-.
Defined.






(** C8, where the code departs from it: a response without candidates has
    no content part with inline image data, and [editAdImage] does not
    fail with its generic error then: reading [content] of the missing
    first candidate raises a [TypeError] before the parts are scanned. *)
Theorem editAdImage_no_candidates (base64Image mimeType editPrompt : jsstring) :
  models_generateContent blocked_service (edit_request base64Image mimeType editPrompt)
    = inr {| text := []; candidates := [] |}
  ∧ outcome (editAdImage blocked_service base64Image mimeType editPrompt)
    = inl (read_of_undefined (u16 "content"))
  ∧ outcome (editAdImage blocked_service base64Image mimeType editPrompt)
    ≠ inl edit_error.
Proof. done. Qed.

End ServiceFacts.

(** ** The history of saved projects *)

Section HistoryFacts.
Import GeminiService App.

Lemma filter_other_id_same (projectId : jsstring) (l : list SavedProject) :
  filter (λ q, sp_id q = projectId) (filter (λ p, sp_id p ≠ projectId) l) = [].
Proof.
  induction l as [|p l IH]; [done|].
  rewrite (filter_cons (λ p, sp_id p ≠ projectId)). case_decide; [|done].
  rewrite filter_cons. by case_decide.
Qed.

Lemma filter_without_id (projectId : jsstring) (l : list SavedProject) :
  without_id projectId l (filter (λ p, sp_id p ≠ projectId) l).
Proof.
  induction l as [|p l IH]; [constructor|].
  rewrite filter_cons. case_decide.
  - by apply without_keep.
  - apply without_drop; [|done]. by destruct (decide (sp_id p = projectId)).
Qed.

Lemma filter_all {A} (P : A → Prop) `{!∀ x, Decision (P x)} (l : list A) :
  (∀ q, q ∈ l → P q) → filter P l = l.
Proof.
  induction l as [|p l IH]; intros Hall; [done|].
  rewrite filter_cons_True by (apply Hall; left).
  f_equal. apply IH. intros q Hq. apply Hall. by right.
Qed.

Lemma filter_unique_id (p : SavedProject) (l1 l2 : list SavedProject) :
  (∀ q, q ∈ l1 ++ l2 → sp_id q ≠ sp_id p) →
  filter (λ q, sp_id q ≠ sp_id p) (l1 ++ p :: l2) = l1 ++ l2.
Proof.
  intros Hother. rewrite filter_app, filter_cons_False by (by intros ?).
  rewrite <- filter_app. by apply filter_all.
Qed.

(** What a save that goes through leaves in the state and in storage. *)
Lemma saveCurrentProject_saved snap env gens first c pid w :
  gens !! 0 = Some first →
  currentProjectId snap = Some (c :: pid) →
  saveCurrentProject snap env gens w =
    let finalProjects :=
      {| sp_id := c :: pid; sp_generations := gens;
         sp_timestamp := date_toLocaleString env;
         sp_previewImage := imageUrl (heap w first) |}
      :: filter (λ p, sp_id p ≠ c :: pid) (savedProjects snap) in
    try_setItem env savedProjects_key (stringify (heap w) finalProjects)
      (u16 "No se pudo guardar el proyecto autom" ++ [225%N] ++ u16 "ticamente:")
      (setSavedProjects finalProjects w).
Proof.
  unfold saveCurrentProject. intros Hfirst ->.
  destruct gens as [|first' rest]; [done|]. by injection Hfirst as ->.
Qed.

Lemma try_setItem_state env key value message w :
  state (try_setItem env key value message w) = state w
  ∧ heap (try_setItem env key value message w) = heap w
  ∧ next (try_setItem env key value message w) = next w.
Proof. unfold try_setItem. by destruct (setItem_throws env). Qed.

Lemma try_setItem_stored env key value message w :
  setItem_throws env = None →
  localStorage (try_setItem env key value message w) !! key = Some value.
Proof. unfold try_setItem. intros ->. cbn. by rewrite lookup_insert_eq. Qed.

(** C6: a save of an empty list of generations leaves the component and
    the browser as they are: the saved projects of the state, local
    storage, and the record of what was written or logged. *)
Theorem saveCurrentProject_empty (snap : AppState) (env : Env) (w : World) :
  saveCurrentProject snap env [] w = w
  ∧ savedProjects (state (saveCurrentProject snap env [] w)) = savedProjects (state w)
  ∧ localStorage (saveCurrentProject snap env [] w) = localStorage w
  ∧ effects (saveCurrentProject snap env [] w) = effects w.
Proof. done. Qed.

(** C5: a save of a non-empty list under the current identifier leaves
    exactly one entry with that identifier among the saved projects; the
    entry holds the saved list itself, whatever an earlier entry held, and
    its preview is the image of the first generation as it is at the
    save; when the write goes through, local storage holds this list. *)
Theorem saveCurrentProject_overwrites (snap : AppState) (env : Env)
    (gens : list loc) (projectId : jsstring) (w : World) :
  gens ≠ [] → currentProjectId snap = Some projectId → projectId ≠ [] →
  let w' := saveCurrentProject snap env gens w in
  ∃ p,
    filter (λ q, sp_id q = projectId) (savedProjects (state w')) = [p]
    ∧ sp_generations p = gens
    ∧ (∀ first, gens !! 0 = Some first → sp_previewImage p = imageUrl (heap w first))
    ∧ heap w' = heap w
    ∧ (setItem_throws env = None →
       localStorage w' !! savedProjects_key = Some (stringify (heap w) (savedProjects (state w')))).
Proof.
  intros Hgens Hid Hne. destruct gens as [|first rest]; [done|].
  destruct projectId as [|c pid]; [done|]. cbn zeta.
  rewrite (saveCurrentProject_saved _ _ (first :: rest) first _ _ _ eq_refl Hid). cbn zeta.
  destruct (try_setItem_state env savedProjects_key
    (stringify (heap w)
       ({| sp_id := c :: pid; sp_generations := first :: rest;
           sp_timestamp := date_toLocaleString env;
           sp_previewImage := imageUrl (heap w first) |}
        :: filter (λ p, sp_id p ≠ c :: pid) (savedProjects snap)))
    (u16 "No se pudo guardar el proyecto autom" ++ [225%N] ++ u16 "ticamente:")
    (setSavedProjects
       ({| sp_id := c :: pid; sp_generations := first :: rest;
           sp_timestamp := date_toLocaleString env;
           sp_previewImage := imageUrl (heap w first) |}
        :: filter (λ p, sp_id p ≠ c :: pid) (savedProjects snap)) w)) as (-> & -> & _).
  eexists. split; [|split; [|split; [|split]]].
  - cbn [state setSavedProjects set_state savedProjects].
    rewrite filter_cons_True by done. by rewrite filter_other_id_same.
  - done.
  - by intros first' [= <-].
  - done.
  - intros Hok. by rewrite try_setItem_stored.
Qed.

Lemma fmap_filter_id (projectId : jsstring) (l : list SavedProject) :
  sp_id <$> filter (λ p, sp_id p ≠ projectId) l = filter (λ i, i ≠ projectId) (sp_id <$> l).
Proof.
  induction l as [|p l IH]; [done|].
  rewrite fmap_cons, !filter_cons. case_decide; [|done]. by rewrite fmap_cons, IH.
Qed.

Lemma remove_dups_snoc (x : jsstring) (l : list jsstring) :
  remove_dups (l ++ [x]) = filter (λ i, i ≠ x) (remove_dups l) ++ [x].
Proof.
  induction l as [|y l IH]; [done|]. cbn [app remove_dups].
  destruct (decide_rel elem_of y (l ++ [x])) as [Hin'|Hnin'],
           (decide_rel elem_of y l) as [Hin|Hnin]; rewrite IH.
  - done.
  - apply elem_of_app in Hin' as [?|Hx]; [done|].
    apply list_elem_of_singleton in Hx as ->.
    by rewrite filter_cons_False by (by intros ?).
  - exfalso. apply Hnin', elem_of_app. by left.
  - rewrite filter_cons_True; [done|].
    intros ->. apply Hnin', elem_of_app. right. by left.
Qed.

Lemma save_as_ids projectId gens env w :
  projectId ≠ [] → gens ≠ [] →
  sp_id <$> savedProjects (state (save_as projectId gens env w)) =
    projectId :: filter (λ i, i ≠ projectId) (sp_id <$> savedProjects (state w)).
Proof.
  intros Hid Hgens. destruct projectId as [|c pid], gens as [|first rest]; try done.
  unfold save_as. rewrite (saveCurrentProject_saved _ _ (first :: rest) first c pid) by done. cbn zeta.
  match goal with
  | |- context [try_setItem ?e ?k ?v ?m ?w0] =>
      destruct (try_setItem_state e k v m w0) as (-> & _)
  end.
  cbn [state setSavedProjects set_state savedProjects setCurrentProjectId].
  by rewrite fmap_cons, fmap_filter_id.
Qed.

(** After saves one after the other, the identifiers of the saved projects
    are those of the saves, the latest save first and each identifier
    once, and behind them the entries that no save touched. *)
Lemma save_all_ids saves w :
  Forall (λ s : jsstring * list loc * Env, s.1.1 ≠ [] ∧ s.1.2 ≠ []) saves →
  sp_id <$> savedProjects (state (save_all saves w)) =
    reverse (remove_dups (saves.*1.*1))
      ++ filter (λ i, i ∉ saves.*1.*1) (sp_id <$> savedProjects (state w)).
Proof.
  induction saves as [|s saves IH] using rev_ind; intros Hall.
  - cbn. symmetry. apply filter_all. intros i _. apply not_elem_of_nil.
  - apply Forall_app in Hall as [Hsaves Hs]. apply Forall_singleton in Hs as [Hid Hgens].
    unfold save_all. rewrite foldl_app. cbn [foldl]. fold (save_all saves w).
    rewrite save_as_ids, IH by done.
    rewrite !fmap_app. cbn [fmap list_fmap].
    rewrite remove_dups_snoc, reverse_app, reverse_singleton. cbn [app]. f_equal.
    rewrite filter_app, filter_reverse. f_equal.
    rewrite list_filter_filter. apply list_filter_iff. intros i.
    rewrite elem_of_app, list_elem_of_singleton. tauto.
Qed.

Lemma filter_id_shorter (projectId : jsstring) (l : list SavedProject) :
  projectId ∈ sp_id <$> l →
  length (filter (λ p, sp_id p ≠ projectId) l) < length l.
Proof.
  induction l as [|p l IH]; intros Hin; [by apply elem_of_nil in Hin|].
  rewrite fmap_cons in Hin. rewrite filter_cons. case_decide as Hp; cbn [length].
  - apply elem_of_cons in Hin as [->|Hin]; [done|]. specialize (IH Hin). lia.
  - pose proof (length_filter (λ p, sp_id p ≠ projectId) l). lia.
Qed.

(** The relation [without_id] determines the list that is left. *)
Lemma without_id_functional projectId l l1 l2 :
  without_id projectId l l1 → without_id projectId l l2 → l1 = l2.
Proof.
  intros H1. revert l2. induction H1; inversion 1; subst; try done; f_equal; auto.
Qed.

(** C9: a save that goes through puts the entry of the project at the
    head of the saved projects and keeps the other entries behind it in
    their order, so that an entry the project had before is gone from its
    old place; and after any saves one after the other the identifiers
    are listed by their latest save, the most recent first. *)
Theorem saveCurrentProject_to_front :
  (∀ (snap : AppState) (env : Env) (gens : list loc) (projectId : jsstring) (w : World),
     gens ≠ [] → currentProjectId snap = Some projectId → projectId ≠ [] →
     ∃ p rest,
       savedProjects (state (saveCurrentProject snap env gens w)) = p :: rest
       ∧ sp_id p = projectId ∧ sp_generations p = gens
       ∧ without_id projectId (savedProjects snap) rest
       ∧ ∀ l1 old l2,
           savedProjects snap = l1 ++ old :: l2 → sp_id old = projectId →
           (∀ q, q ∈ l1 ++ l2 → sp_id q ≠ projectId) →
           rest = l1 ++ l2)
  ∧ (∀ (saves : list (jsstring * list loc * Env)) (w : World),
       Forall (λ s, s.1.1 ≠ [] ∧ s.1.2 ≠ []) saves →
       sp_id <$> savedProjects (state (save_all saves w)) =
         reverse (remove_dups (saves.*1.*1))
           ++ filter (λ i, i ∉ saves.*1.*1) (sp_id <$> savedProjects (state w))).
Proof.
  split; [|apply save_all_ids].
  intros snap env gens projectId w Hgens Hid Hne.
  destruct gens as [|first rest]; [done|]. destruct projectId as [|c pid]; [done|].
  rewrite (saveCurrentProject_saved _ _ (first :: rest) first _ _ _ eq_refl Hid). cbn zeta.
  match goal with
  | |- context [try_setItem ?e ?k ?v ?m ?w0] =>
      destruct (try_setItem_state e k v m w0) as (-> & _)
  end.
  cbn [state setSavedProjects set_state savedProjects].
  eexists _, _. split; [done|]. split; [done|]. split; [done|].
  split; [apply filter_without_id|].
  intros l1 old l2 -> <- Hother. by apply filter_unique_id.
Qed.

(** C4: deleting a project whose identifier is among the saved projects
    leaves the list without the entries of that identifier: the others
    stay as they are and in their order, and the list gets shorter. When
    the identifier has one entry, the list is what stood before that
    entry followed by what stood behind it. No generation object is
    touched, and the new list is what is written to local storage. *)
Theorem handleDeleteProject_removes (env : Env) (projectId : jsstring) (w : World) :
  projectId ∈ sp_id <$> savedProjects (state w) →
  let w' := handleDeleteProject env projectId w in
  without_id projectId (savedProjects (state w)) (savedProjects (state w'))
  ∧ length (savedProjects (state w')) < length (savedProjects (state w))
  ∧ (∀ l1 p l2,
       savedProjects (state w) = l1 ++ p :: l2 → sp_id p = projectId →
       (∀ q, q ∈ l1 ++ l2 → sp_id q ≠ projectId) →
       savedProjects (state w') = l1 ++ l2)
  ∧ heap w' = heap w
  ∧ (setItem_throws env = None →
     localStorage w' !! savedProjects_key
       = Some (stringify (heap w) (savedProjects (state w')))).
Proof.
  intros Hin. cbn zeta. unfold handleDeleteProject.
  match goal with
  | |- context [try_setItem ?e ?k ?v ?m ?w0] =>
      destruct (try_setItem_state e k v m w0) as (-> & -> & _)
  end.
  cbn [state setSavedProjects set_state savedProjects heap].
  split; [apply filter_without_id|]. split; [by apply filter_id_shorter|].
  split; [|split; [done|]].
  - intros l1 p l2 -> <- Hother. by apply filter_unique_id.
  - intros Hok. by rewrite try_setItem_stored.
Qed.

(** C5 in the example run, saving its two generations. *)
Lemma saveCurrentProject_overwrites_witness :
  currentProjectId (state example_run) = Some (u16 "2026-11-02T19:44:00.000Z")
  ∧ ∃ p,
      filter (λ q, sp_id q = u16 "2026-11-02T19:44:00.000Z")
        (savedProjects (state
           (saveCurrentProject (state example_run) example_env [0; 1] example_run))) = [p]
      ∧ sp_generations p = [0; 1]
      ∧ sp_previewImage p = u16 "data:image/jpeg;base64,/9j/4AAQSkZJRg==".
Proof.
  split; [done|].
  destruct (saveCurrentProject_overwrites (state example_run) example_env [0; 1]
              (u16 "2026-11-02T19:44:00.000Z") example_run)
    as (p & Hone & Hgens & Hpreview & _); [done..|].
  exists p. split; [done|]. split; [done|]. by rewrite (Hpreview 0).
Defined.

(** C9 on three saves into an empty history: the project saved first and
    again last is at the head. *)
Lemma saveCurrentProject_to_front_witness :
  sp_id <$> savedProjects (state
    (save_all [ (u16 "2026-11-02T19:44:00.000Z", [0], example_env);
                (u16 "2026-11-02T20:05:00.000Z", [1], later_env);
                (u16 "2026-11-02T19:44:00.000Z", [0; 2], later_env) ]
       (mount (initial_world ∅))))
  = [u16 "2026-11-02T19:44:00.000Z"; u16 "2026-11-02T20:05:00.000Z"].
Proof.
  rewrite (proj2 saveCurrentProject_to_front); [vm_compute; reflexivity|].
  repeat (apply Forall_cons; split; [done|]). apply Forall_nil_2.
Defined.

(** C4 in the example history: deleting the older of its two projects. *)
Lemma handleDeleteProject_removes_witness :
  sp_id <$> savedProjects (state example_history)
    = [u16 "2026-11-02T20:05:00.000Z"; u16 "2026-11-02T19:44:00.000Z"]
  ∧ sp_id <$> savedProjects (state
      (handleDeleteProject later_env (u16 "2026-11-02T19:44:00.000Z") example_history))
    = [u16 "2026-11-02T20:05:00.000Z"].
Proof.
  split; [vm_compute; reflexivity|].
  destruct (handleDeleteProject_removes later_env (u16 "2026-11-02T19:44:00.000Z")
              example_history) as (_ & _ & Hone & _).
  - vm_compute. apply list_elem_of_In. right. by left.
  - assert (∃ p1 p2, savedProjects (state example_history) = [p1] ++ p2 :: []
                     ∧ sp_id p1 = u16 "2026-11-02T20:05:00.000Z"
                     ∧ sp_id p2 = u16 "2026-11-02T19:44:00.000Z") as (p1 & p2 & Heq & H1 & H2)
      by (eexists _, _; split; [vm_compute; reflexivity|split; reflexivity]).
    rewrite (Hone _ _ _ Heq H2).
    + by rewrite app_nil_r, list_fmap_singleton, H1.
    + rewrite app_nil_r. intros q Hq. apply list_elem_of_singleton in Hq as ->. by rewrite H1.
Defined.

End HistoryFacts.

(** ** The generation objects of the current project *)

Section GenerationFacts.
Import GeminiService App.

Lemma saveCurrentProject_frame snap env gens w :
  generations (state (saveCurrentProject snap env gens w)) = generations (state w)
  ∧ next (saveCurrentProject snap env gens w) = next w
  ∧ heap (saveCurrentProject snap env gens w) = heap w.
Proof.
  unfold saveCurrentProject, try_setItem. by repeat case_match.
Qed.

Lemma parse_generations_frame gs w :
  state (parse_generations gs w).2 = state w.
Proof.
  revert w. induction gs as [|g gs IH]; intros w; [done|]. cbn.
  destruct (parse_generations gs _) as [ls w'] eqn:Hp.
  cbn. change w' with (ls, w').2. rewrite <- Hp, IH. done.
Qed.

Lemma parse_projects_frame ps w :
  state (parse_projects ps w).2 = state w.
Proof.
  revert w. induction ps as [|p ps IH]; intros w; [done|]. cbn.
  destruct (parse_generations (stored_generations p) w) as [ls w1] eqn:Hg.
  destruct (parse_projects ps w1) as [projects w2] eqn:Hp. cbn.
  change w2 with (projects, w2).2. rewrite <- Hp, IH.
  change w1 with (ls, w1).2. by rewrite <- Hg, parse_generations_frame.
Qed.

Lemma mount_generations storage :
  generations (state (mount (initial_world storage))) = [].
Proof.
  unfold mount. destruct (localStorage _ !! _) as [stored|]; [|done].
  destruct (parse_projects stored _) as [projects w'] eqn:Hp. cbn.
  change w' with (projects, w').2. by rewrite <- Hp, parse_projects_frame.
Qed.

Lemma callGenerateAPI_frame snap env w :
  match callGenerateAPI snap env w with
  | (Some l, w') =>
      l = next w ∧ next w' = S (next w) ∧ generations (state w') = generations (state w)
  | (None, w') =>
      next w' = next w ∧ generations (state w') = generations (state w)
  end.
Proof.
  unfold callGenerateAPI, alloc.
  destruct (outcome _) as [err|generation]; by cbn.
Qed.

Lemma handleEdit_frame env w :
  generations (state (handleEdit env w)) = generations (state w)
  ∧ next (handleEdit env w) = next w.
Proof.
  unfold handleEdit. repeat case_match; try done.
  cbn [setStep setEditPrompt set_state state next generations].
  match goal with
  | |- context [saveCurrentProject ?s ?e ?g ?w0] =>
      destruct (saveCurrentProject_frame s e g w0) as (-> & -> & _)
  end. done.
Qed.

Lemma generations_wf_fresh w :
  generations_wf w → NoDup (generations (state w) ++ [next w]).
Proof.
  intros [Hnd Hlt]. apply NoDup_app. split; [done|]. split; [|apply NoDup_singleton].
  intros x Hx Hx'. apply list_elem_of_singleton in Hx' as ->.
  rewrite Forall_forall in Hlt. specialize (Hlt _ Hx). lia.
Qed.

Lemma handle_generations_wf a env w :
  generations_wf w → generations_wf (handle a env w).
Proof.
  intros Hwf. pose proof (generations_wf_fresh w Hwf) as Hfresh.
  destruct Hwf as [Hnd Hlt]. unfold generations_wf.
  destruct a; cbn [handle]; try done.
  - (* Generate *)
    unfold handleGenerate. destruct (inputFiles (state w)) as [|f fs]; [done|].
    match goal with
    | |- context [callGenerateAPI ?s ?e ?w0] =>
        pose proof (callGenerateAPI_frame s e w0) as Hcall;
        destruct (callGenerateAPI s e w0) as [[l|] w']
    end.
    + destruct Hcall as (-> & Hnext & _).
      cbn [setStep set_state state next].
      match goal with
      | |- context [saveCurrentProject ?s ?e ?g ?w0] =>
          destruct (saveCurrentProject_frame s e g w0) as (-> & -> & _)
      end.
      cbn. rewrite Hnext. cbn. split; [apply NoDup_singleton|].
      apply Forall_singleton. lia.
    + destruct Hcall as [Hnext Hgens]. cbn in *. by rewrite Hnext, Hgens.
  - (* GenerateAnother *)
    unfold handleGenerateAnother.
    match goal with
    | |- context [callGenerateAPI ?s ?e ?w0] =>
        pose proof (callGenerateAPI_frame s e w0) as Hcall;
        destruct (callGenerateAPI s e w0) as [[l|] w']
    end.
    + destruct Hcall as (-> & Hnext & _).
      cbn [setStep set_state state next].
      match goal with
      | |- context [saveCurrentProject ?s ?e ?g ?w0] =>
          destruct (saveCurrentProject_frame s e g w0) as (-> & -> & _)
      end.
      cbn in *. rewrite Hnext. split; [done|].
      apply Forall_app. split; [|apply Forall_singleton; lia].
      eapply Forall_impl; [done|]. cbn. lia.
    + destruct Hcall as [Hnext Hgens]. cbn in *. by rewrite Hnext, Hgens.
  - (* Edit *)
    by destruct (handleEdit_frame env w) as [-> ->].
  - (* Reset *)
    cbn. split; [apply NoDup_nil_2|apply Forall_nil_2].
  - (* DeleteProject *)
    unfold handleDeleteProject, try_setItem. by case_match.
Qed.

(** Between two handlers the generations of the state are distinct
    objects: each comes from its own answer of the service. *)
Lemma reachable_generations_wf w : reachable w → generations_wf w.
Proof.
  induction 1 as [storage|a env w _ IH].
  - unfold generations_wf. rewrite mount_generations.
    split; [apply NoDup_nil_2|apply Forall_nil_2].
  - by apply handle_generations_wf.
Qed.

Lemma heap_set_fmap (h : Heap) l g (ls : list loc) :
  l ∉ ls → heap_set h l g <$> ls = h <$> ls.
Proof.
  intros Hl. apply list_fmap_ext. intros i x Hx. unfold heap_set.
  case_decide; [|done]. subst. exfalso. apply Hl. by eapply list_elem_of_lookup_2.
Qed.

Lemma heap_set_same (h : Heap) l g : heap_set h l g l = g.
Proof. unfold heap_set. by rewrite decide_True. Qed.

(** The world after an edit whose requests went through. *)
Lemma handleEdit_success env w earlier l newImageUrl :
  generations (state w) = earlier ++ [l] →
  editPrompt (state w) ≠ [] →
  outcome (awaited_edit env (imageUrl (heap w l)) (editPrompt (state w))) = inr newImageUrl →
  handleEdit env w =
    setStep result (setEditPrompt []
      (saveCurrentProject (state w) env (earlier ++ [l])
         (setGenerations (earlier ++ [l])
            (set_heap (heap_set (heap w) l
                         {| imageUrl := newImageUrl; description := description (heap w l) |})
               (log_trace (awaited_edit env (imageUrl (heap w l)) (editPrompt (state w)))
                  (setError [] (setStep editing w))))))).
Proof.
  intros Hgens Hprompt Hout. unfold handleEdit. rewrite Hgens, last_snoc.
  destruct (editPrompt (state w)) as [|c e]; [done|].
  cbn [heap setStep setError set_state log_trace log]. by rewrite Hout.
Qed.

(** The world after an edit one of whose requests failed. *)
Lemma handleEdit_failure env w earlier l err :
  generations (state w) = earlier ++ [l] →
  editPrompt (state w) ≠ [] →
  outcome (awaited_edit env (imageUrl (heap w l)) (editPrompt (state w))) = inl err →
  handleEdit env w =
    setStep result (setError (u16 "Error al editar imagen: " ++ errorMessage err)
      (log_trace (awaited_edit env (imageUrl (heap w l)) (editPrompt (state w)))
         (setError [] (setStep editing w)))).
Proof.
  intros Hgens Hprompt Hout. unfold handleEdit. rewrite Hgens, last_snoc.
  destruct (editPrompt (state w)) as [|c e]; [done|].
  cbn [heap setStep setError set_state log_trace log]. by rewrite Hout.
Qed.

(** C3: in a world the component can be in, with a current project and a
    non-empty list of generations, an edit whose requests go through gives
    the last generation the new image URL and nothing else: the list holds
    the same objects, the earlier ones read as before, the last one keeps
    its description. The saved projects then start with the entry of the
    project, which holds exactly this list, in front of the entries of the
    other projects; and when the write goes through, the entry written to
    local storage reads the same. *)
Theorem handleEdit_replaces_last_image (env : Env) (w : World)
    (earlier : list loc) (lastGeneration : loc) (projectId newImageUrl : jsstring) :
  reachable w →
  generations (state w) = earlier ++ [lastGeneration] →
  editPrompt (state w) ≠ [] →
  currentProjectId (state w) = Some projectId → projectId ≠ [] →
  outcome (awaited_edit env (imageUrl (heap w lastGeneration)) (editPrompt (state w)))
    = inr newImageUrl →
  let w' := handleEdit env w in
  let edited := {| imageUrl := newImageUrl;
                   description := description (heap w lastGeneration) |} in
  generations (state w') = earlier ++ [lastGeneration]
  ∧ heap w' <$> generations (state w') = (heap w <$> earlier) ++ [edited]
  ∧ (∃ p,
       savedProjects (state w') =
         p :: filter (λ q, sp_id q ≠ projectId) (savedProjects (state w))
       ∧ sp_id p = projectId
       ∧ sp_generations p = earlier ++ [lastGeneration]
       ∧ heap w' <$> sp_generations p = (heap w <$> earlier) ++ [edited])
  ∧ (setItem_throws env = None →
     ∃ stored rest,
       localStorage w' !! savedProjects_key = Some (stored :: rest)
       ∧ stored_id stored = projectId
       ∧ stored_generations stored = (heap w <$> earlier) ++ [edited])
  ∧ step (state w') = result.
Proof.
  intros Hreach Hgens Hprompt Hid Hne Hout. cbn zeta.
  apply reachable_generations_wf in Hreach as [Hnd _].
  rewrite Hgens in Hnd. apply NoDup_app in Hnd as (_ & Hnotin & _).
  assert (lastGeneration ∉ earlier) as Hlast
    by (intros Hin; apply (Hnotin _ Hin); by left).
  rewrite (handleEdit_success _ _ _ _ _ Hgens Hprompt Hout).
  destruct projectId as [|c pid]; [done|].
  assert (∃ first, (earlier ++ [lastGeneration]) !! 0 = Some first) as [first Hfirst]
    by (destruct earlier; by eexists).
  rewrite (saveCurrentProject_saved _ _ _ first c pid _ Hfirst Hid). cbn zeta.
  assert (heap_set (heap w) lastGeneration
            {| imageUrl := newImageUrl; description := description (heap w lastGeneration) |}
            <$> earlier ++ [lastGeneration]
          = (heap w <$> earlier)
              ++ [{| imageUrl := newImageUrl;
                     description := description (heap w lastGeneration) |}]) as Hread.
  { rewrite fmap_app, heap_set_fmap by done. cbn [fmap list_fmap]. by rewrite heap_set_same. }
  unfold try_setItem.
  destruct (setItem_throws env) as [e|];
    cbn [state heap generations savedProjects step localStorage setStep setEditPrompt
         setSavedProjects setGenerations set_heap set_state log log_trace setError];
    (split; [done|]); (split; [done|]); (split; [by eexists|]); (split; [|done]).
  - done.
  - intros _. rewrite lookup_insert_eq. cbn [stringify fmap list_fmap].
    eexists _, _. split; [done|]. split; [done|]. cbn [stored_generations sp_generations].
    exact Hread.
Qed.

(** C10: when a request of the edit fails, the component keeps its
    generations, objects and contents, its saved projects and local
    storage as they were, shows the message of the error behind the
    prefix of the handler, and is back at the [result] step. *)
Theorem handleEdit_failure_keeps (env : Env) (w : World)
    (earlier : list loc) (lastGeneration : loc) (err : exn) :
  generations (state w) = earlier ++ [lastGeneration] →
  editPrompt (state w) ≠ [] →
  outcome (awaited_edit env (imageUrl (heap w lastGeneration)) (editPrompt (state w)))
    = inl err →
  let w' := handleEdit env w in
  generations (state w') = generations (state w)
  ∧ heap w' = heap w
  ∧ savedProjects (state w') = savedProjects (state w)
  ∧ localStorage w' = localStorage w
  ∧ error (state w') = u16 "Error al editar imagen: " ++ errorMessage err
  ∧ step (state w') = result.
Proof.
  intros Hgens Hprompt Hout. cbn zeta.
  by rewrite (handleEdit_failure _ _ _ _ _ Hgens Hprompt Hout).
Qed.

(** [handleGenerate] saves through the callback of the render in which the
    button was pressed: that render has no current project yet, so the
    first generation of a project is shown and not saved. *)
Lemma handleGenerate_first_not_saved env w :
  currentProjectId (state w) = None →
  savedProjects (state (handleGenerate env w)) = savedProjects (state w)
  ∧ localStorage (handleGenerate env w) = localStorage w.
Proof.
  intros Hid. unfold handleGenerate. destruct (inputFiles (state w)) as [|f fs]; [done|].
  unfold saveCurrentProject. rewrite Hid. unfold callGenerateAPI, alloc.
  destruct (outcome _) as [err|generation]; by cbn.
Qed.

Lemma example_run_reachable : reachable example_run.
Proof. unfold example_run. repeat apply reachable_handle. apply reachable_mount. Qed.

(** C3 in the example run: the second generation gets the PNG of the
    edit, the first keeps its JPEG. *)
Lemma handleEdit_replaces_last_image_witness :
  generations (state example_run) = [0] ++ [1]
  ∧ currentProjectId (state example_run) = Some (u16 "2026-11-02T19:44:00.000Z")
  ∧ imageUrl <$> (heap (handleEdit example_env example_run)
                    <$> generations (state (handleEdit example_env example_run)))
    = [u16 "data:image/jpeg;base64,/9j/4AAQSkZJRg=="; u16 "data:image/png;base64,iVBORw0KGgo="]
  ∧ sp_generations <$> savedProjects (state (handleEdit example_env example_run)) = [[0; 1]].
Proof.
  split; [done|]. split; [done|].
  destruct (handleEdit_replaces_last_image example_env example_run [0] 1
              (u16 "2026-11-02T19:44:00.000Z") (u16 "data:image/png;base64,iVBORw0KGgo="))
    as (_ & Hread & (p & Hsaved & _ & Hgens & _) & _);
    [apply example_run_reachable|first [vm_compute; reflexivity|by vm_compute]..|].
  rewrite Hread, Hsaved. split; [vm_compute; reflexivity|].
  rewrite fmap_cons, Hgens. vm_compute. reflexivity.
Defined.

(** C10 in the example run, when the edit request is turned down. *)
Lemma handleEdit_failure_keeps_witness :
  outcome (awaited_edit blocked_env (imageUrl (heap example_run 1))
             (editPrompt (state example_run)))
    = inl (read_of_undefined (u16 "content"))
  ∧ generations (state (handleEdit blocked_env example_run)) = [0; 1]
  ∧ step (state (handleEdit blocked_env example_run)) = result
  ∧ error (state (handleEdit blocked_env example_run))
    = u16 "Error al editar imagen: Cannot read properties of undefined (reading 'content')".
Proof.
  split; [vm_compute; reflexivity|].
  destruct (handleEdit_failure_keeps blocked_env example_run [0] 1
              (read_of_undefined (u16 "content")))
    as (Hgens & _ & _ & _ & Herror & Hstep);
    [first [vm_compute; reflexivity|by vm_compute]..|].
  rewrite Hgens, Hstep, Herror.
  split; [vm_compute; reflexivity|]. split; [reflexivity|]. vm_compute. reflexivity.
Defined.

End GenerationFacts.

(** * Further properties *)

(** ** The matcher, read backwards *)

Section MatcherFacts.
Import Regex GeminiService.

Lemma match_lit_inv (l : jsstring) q s caps :
  match_here (lit l ++ q) s = Some caps →
  occurs_at l s 0 ∧ match_here q (drop (length l) s) = Some caps.
Proof.
  intros Hm. destruct (occurs_at_dec l s 0) as [Hocc|Hocc].
  - by rewrite match_lit_occ in Hm.
  - by rewrite match_lit_nocc in Hm.
Qed.

Lemma star_inv q s r :
  match_here (CaptureAnyStar :: q) s = Some r →
  ∃ k caps, k ≤ length s ∧ match_here q (drop k s) = Some caps.
Proof.
  revert r. induction s as [|c s IH]; intros r Hm.
  - rewrite star_nil in Hm. destruct (match_here q []) as [caps|] eqn:Hq; [|done].
    exists 0, caps. by rewrite drop_0.
  - rewrite star_cons in Hm.
    destruct (match_here (CaptureAnyStar :: q) s) as [[|cap caps]|] eqn:Hs.
    + destruct (IH _ eq_refl) as (k & caps & Hk & Hq).
      exists (S k), caps. split; [simpl; lia|done].
    + destruct (IH _ eq_refl) as (k & caps' & Hk & Hq).
      exists (S k), caps'. split; [simpl; lia|done].
    + destruct (match_here q (c :: s)) as [caps|] eqn:Hq; [|done].
      exists 0, caps. split; [lia|by rewrite drop_0].
Qed.

Lemma exec_inv p s caps :
  exec p s = Some caps → ∃ i, i ≤ length s ∧ match_here p (drop i s) = Some caps.
Proof.
  induction s as [|c s IH]; simpl; intros Hm.
  - destruct (match_here p []) eqn:Hp; [|done]. exists 0. by simplify_eq.
  - destruct (match_here p (c :: s)) eqn:Hp.
    + exists 0. split; [lia|]. by simplify_eq.
    + destruct (IH Hm) as (i & Hi & Hq). exists (S i). split; [lia|done].
Qed.

Lemma promptMatch_occurs t :
  is_Some (promptMatch t) ↔ ∃ k, occurs_at PROMPT t k.
Proof.
  split.
  - intros [caps Hm]. apply exec_inv in Hm as (i & _ & Hm).
    apply match_lit_inv in Hm as [Hocc _]. exists i.
    by rewrite occurs_at_drop, Nat.add_0_r in Hocc.
  - intros [k Hk]. destruct (first_occurrence _ _ _ Hk) as (k1 & _ & Hk1 & Hfirst).
    eexists. by apply exec_lit_group.
Qed.

Lemma descriptionMatch_occurs t :
  is_Some (descriptionMatch t) ↔
  ∃ i k, occurs_at DESCRIPCION t i ∧ i + length DESCRIPCION ≤ k ∧ occurs_at PROMPT t k.
Proof.
  split.
  - intros [caps Hm]. apply exec_inv in Hm as (i & _ & Hm).
    apply match_lit_inv in Hm as [HD Hm]. cbn [app] in Hm.
    apply star_inv in Hm as (k & caps' & _ & Hm).
    rewrite <- (app_nil_r (lit PROMPT)) in Hm. apply match_lit_inv in Hm as [HP _].
    rewrite occurs_at_drop, Nat.add_0_r in HD. rewrite !occurs_at_drop in HP.
    exists i, (i + (length DESCRIPCION + (k + 0))). split; [done|]. split; [lia|done].
  - intros (i & k & HD & Hik & HP).
    destruct (first_occurrence _ _ _ HD) as (i0 & Hi0 & HD0 & Hfirst).
    destruct (last_occurrence _ _ _ PROMPT_ne HP) as (k' & Hk' & HP' & Hlast).
    eexists. apply exec_lit_group_lit; try done. lia.
Qed.

Lemma match_singleton t :
  (∀ caps, descriptionMatch t = Some caps → ∃ d, caps = [d])
  ∧ (∀ caps, promptMatch t = Some caps → ∃ p, caps = [p]).
Proof.
  split; intros caps Hm.
  - destruct (proj1 (descriptionMatch_occurs t) (mk_is_Some _ _ Hm)) as (i & k & HD & Hik & HP).
    destruct (first_occurrence _ _ _ HD) as (i0 & Hi0 & HD0 & Hfirst).
    destruct (last_occurrence _ _ _ PROMPT_ne HP) as (k' & Hk' & HP' & Hlast).
    unfold descriptionMatch, description_re in Hm.
    rewrite (exec_lit_group_lit DESCRIPCION PROMPT t i0 k') in Hm by (try done; lia).
    eexists. by simplify_eq.
  - destruct (proj1 (promptMatch_occurs t) (mk_is_Some _ _ Hm)) as (k & HP).
    destruct (first_occurrence _ _ _ HP) as (k1 & _ & HP1 & Hfirst).
    unfold promptMatch, prompt_re in Hm. rewrite (exec_lit_group PROMPT t k1) in Hm by done.
    eexists. by simplify_eq.
Qed.

Lemma description_needs_prompt t :
  is_Some (descriptionMatch t) → is_Some (promptMatch t).
Proof.
  rewrite descriptionMatch_occurs, promptMatch_occurs. intros (i & k & _ & _ & HP). eauto.
Qed.

(** X1: the prompt pattern matches exactly the responses that contain
    ---PROMPT---, and the description pattern exactly those that contain
    ---DESCRIPCION--- with a ---PROMPT--- behind it. So a description is
    never extracted without a prompt, and the warning is logged exactly
    when no description is extracted. *)
Theorem patterns_match_iff (responseText : jsstring) :
  (is_Some (promptMatch responseText) ↔ ∃ k, occurs_at PROMPT responseText k)
  ∧ (is_Some (descriptionMatch responseText) ↔
     ∃ i k, occurs_at DESCRIPCION responseText i
            ∧ i + length DESCRIPCION ≤ k ∧ occurs_at PROMPT responseText k)
  ∧ (is_Some (descriptionMatch responseText) → is_Some (promptMatch responseText))
  ∧ ∀ style,
      trace (parse_step responseText style) = [] ↔ is_Some (descriptionMatch responseText).
Proof.
  pose proof (description_needs_prompt responseText) as Himp.
  split; [apply promptMatch_occurs|]. split; [apply descriptionMatch_occurs|].
  split; [done|]. intros style. unfold parse_step.
  fold (descriptionMatch responseText) (promptMatch responseText).
  destruct (descriptionMatch responseText) as [dm|] eqn:Hd.
  - destruct (Himp (mk_is_Some _ _ eq_refl)) as [pm ->]. cbn. split; [eauto|done].
  - cbn. split; [done|]. by intros [? ?].
Qed.

(** X1 on the response with a repeated ---PROMPT---: both patterns match
    and no warning is logged. *)
Lemma patterns_match_iff_witness :
  occurs_at DESCRIPCION repeated_prompt_response 0
  ∧ occurs_at PROMPT repeated_prompt_response 18
  ∧ is_Some (descriptionMatch repeated_prompt_response)
  ∧ trace (parse_step repeated_prompt_response []) = [].
Proof.
  assert (occurs_at DESCRIPCION repeated_prompt_response 0) as HD by reflexivity.
  assert (occurs_at PROMPT repeated_prompt_response 18) as HP by reflexivity.
  destruct (patterns_match_iff repeated_prompt_response) as (_ & Hd & _ & Hwarn).
  assert (is_Some (descriptionMatch repeated_prompt_response)) as Hsome.
  { apply Hd. exists 0, 18. split; [exact HD|]. split; [|exact HP].
    change (length DESCRIPCION) with 17. lia. }
  split; [exact HD|]. split; [exact HP|]. split; [exact Hsome|]. by apply Hwarn.
Defined.

End MatcherFacts.

(** ** What [trim] leaves *)

Section TrimFacts.
Import Regex GeminiService.

Lemma trimStart_spec s :
  ∃ pre, s = pre ++ trimStart s
         ∧ Forall (λ c, is_ws c = true) pre
         ∧ ∀ c, head (trimStart s) = Some c → is_ws c = false.
Proof.
  induction s as [|c s (pre & Heq & Hpre & Hhead)].
  - exists []. by repeat split.
  - simpl. destruct (is_ws c) eqn:Hc.
    + exists (c :: pre). split; [by rewrite Heq at 1|]. split; [by constructor|done].
    + exists []. split; [done|]. split; [constructor|]. by intros ? [= <-].
Qed.

Lemma trimEnd_spec s :
  ∃ post, s = trimEnd s ++ post
          ∧ Forall (λ c, is_ws c = true) post
          ∧ ∀ c, last (trimEnd s) = Some c → is_ws c = false.
Proof.
  destruct (trimStart_spec (reverse s)) as (pre & Heq & Hpre & Hhead).
  exists (reverse pre). unfold trimEnd. split; [|split].
  - by rewrite <- reverse_app, <- Heq, reverse_involutive.
  - by apply Forall_reverse.
  - intros c. rewrite last_reverse. apply Hhead.
Qed.

Lemma trim_spec s : trimmed_of s (trim s).
Proof.
  destruct (trimStart_spec s) as (pre & Heq & Hpre & Hhead).
  destruct (trimEnd_spec (trimStart s)) as (post & Heq' & Hpost & Hlast).
  exists pre, post. unfold trim. split; [by rewrite <- Heq'|]. split; [done|].
  split; [done|]. split; [|done].
  intros c Hc. apply Hhead. rewrite Heq'.
  destruct (trimEnd (trimStart s)); [done|]. by simplify_eq/=.
Qed.

(** X2: when a description is extracted, both extracted texts are the
    captured groups without the whitespace around them: what is cut off in
    front and behind is whitespace only, and the text that is kept neither
    starts nor ends with whitespace. *)
Theorem parse_step_trims (responseText style : jsstring) :
  is_Some (descriptionMatch responseText) →
  ∃ d p parsed,
    descriptionMatch responseText = Some [d] ∧ promptMatch responseText = Some [p]
    ∧ parse_step responseText style = Run [] (inr parsed)
    ∧ trimmed_of d (p_description parsed)
    ∧ trimmed_of p (p_imageGenerationPrompt parsed).
Proof.
  intros Hd. pose proof (description_needs_prompt responseText Hd) as Hp.
  destruct Hd as [dm Hd], Hp as [pm Hp].
  destruct (proj1 (match_singleton responseText) _ Hd) as [d ->].
  destruct (proj2 (match_singleton responseText) _ Hp) as [p ->].
  eexists d, p, _. split; [done|]. split; [done|].
  split; [by apply parse_step_matched|]. split; apply trim_spec.
Qed.

(** X2 on the example of the specification: the line feeds around the two
    texts are what is cut off. *)
Lemma parse_step_trims_witness :
  ∃ d p parsed,
    descriptionMatch example_response = Some [d] ∧ promptMatch example_response = Some [p]
    ∧ parse_step example_response [] = Run [] (inr parsed)
    ∧ trimmed_of d (p_description parsed)
    ∧ trimmed_of p (p_imageGenerationPrompt parsed).
Proof.
  apply parse_step_trims. eexists. vm_compute. reflexivity.
Defined.

End TrimFacts.

(** ** Errors of the service functions *)

Section ServiceErrors.
Import Regex GeminiService.

Lemma key_error_thrown svc :
  API_KEY svc = None ∨ API_KEY svc = Some [] → getAiClient svc = throw key_error.
Proof. unfold getAiClient. by intros [-> | ->]. Qed.

(** X3: without a credential, or with an empty one, both service
    functions throw the error of [getAiClient] and send nothing. *)
Theorem service_needs_key (svc : Service) :
  API_KEY svc = None ∨ API_KEY svc = Some [] →
  (∀ images userPrompt style,
     generateAdContent svc images userPrompt style = Run [] (inl key_error))
  ∧ (∀ base64Image mimeType editPrompt,
       editAdImage svc base64Image mimeType editPrompt = Run [] (inl key_error)).
Proof.
  intros Hkey. split; intros; unfold generateAdContent, editAdImage;
    by rewrite (key_error_thrown _ Hkey).
Qed.

Lemma service_needs_key_witness :
  API_KEY keyless_service = None
  ∧ generateAdContent keyless_service [] (u16 "Oferta") Automatico_style
    = Run [] (inl key_error)
  ∧ editAdImage keyless_service (u16 "/9j/4AAQ") (u16 "image/jpeg") (u16 "mas brillo")
    = Run [] (inl key_error).
Proof.
  split; [reflexivity|].
  destruct (service_needs_key keyless_service) as [Hgen Hedit]; [by left|].
  by rewrite Hgen, Hedit.
Defined.

Lemma generateAdContent_after_key svc key images userPrompt style :
  API_KEY svc = Some key → key ≠ [] →
  generateAdContent svc images userPrompt style =
    Run [CallGenerateContent (description_request images userPrompt style)]
        (models_generateContent svc (description_request images userPrompt style))
    ≫= λ descriptionResponse,
      parse_step (text descriptionResponse) style ≫= λ parsed,
      Run [CallGenerateImages (image_request (p_imageGenerationPrompt parsed))]
          (models_generateImages svc (image_request (p_imageGenerationPrompt parsed)))
      ≫= λ imageResponse,
        match generatedImages imageResponse with
        | Some (g :: _) =>
            mret {| imageUrl := u16 "data:image/jpeg;base64," ++ imageBytes (image g);
                    description := p_description parsed |}
        | _ => throw image_error
        end.
Proof.
  intros Hkey Hne. unfold generateAdContent, getAiClient. rewrite Hkey.
  destruct key as [|c key]; [done|].
  fold (description_request images userPrompt style).
  unfold await_generateContent, await_generateImages, mbind, M_bind, mret, M_ret;
    cbn [outcome trace].
  destruct (models_generateContent svc _) as [e|response]; [done|]. cbn [outcome trace].
  destruct (parse_step (text response) style) as [warnings [e|parsed]]; [done|].
  cbn [outcome trace]. fold (image_request (p_imageGenerationPrompt parsed)).
  destruct (models_generateImages svc _) as [e|[[[|g gs]|]]]; done.
Qed.

(** X4: a request that the service rejects ends [generateAdContent] with
    the service's own error. After a rejected content request no image is
    asked for; a rejected image request comes after the content request
    and the warnings of the parsing step. *)
Theorem generateAdContent_rejected (svc : Service) (key : jsstring)
    (images : list Base64Image) (userPrompt style : jsstring) :
  API_KEY svc = Some key → key ≠ [] →
  (∀ e,
     models_generateContent svc (description_request images userPrompt style) = inl e →
     generateAdContent svc images userPrompt style =
       Run [CallGenerateContent (description_request images userPrompt style)] (inl e))
  ∧ (∀ response warnings parsed e,
       models_generateContent svc (description_request images userPrompt style)
         = inr response →
       parse_step (text response) style = Run warnings (inr parsed) →
       models_generateImages svc (image_request (p_imageGenerationPrompt parsed)) = inl e →
       generateAdContent svc images userPrompt style =
         Run ([CallGenerateContent (description_request images userPrompt style)]
                ++ warnings
                ++ [CallGenerateImages (image_request (p_imageGenerationPrompt parsed))])
             (inl e)).
Proof.
  intros Hkey Hne. rewrite (generateAdContent_after_key _ _ _ _ _ Hkey Hne).
  split.
  - by intros e ->.
  - intros response warnings parsed e -> Hparse Himg.
    unfold mbind, M_bind; cbn [outcome trace]. rewrite Hparse. cbn [outcome trace].
    by rewrite Himg.
Qed.

Lemma generateAdContent_rejected_witness :
  API_KEY rejecting_service = Some (u16 "k3y")
  ∧ generateAdContent rejecting_service [] (u16 "Oferta") Automatico_style =
      Run [CallGenerateContent (description_request [] (u16 "Oferta") Automatico_style)]
          (inl (Error (u16 "503 Service Unavailable"))).
Proof.
  split; [reflexivity|].
  by apply (proj1 (generateAdContent_rejected rejecting_service (u16 "k3y") []
                     (u16 "Oferta") Automatico_style eq_refl ltac:(done))).
Defined.




Lemma scan_parts_trace ps : trace (scan_parts ps) = [].
Proof. induction ps as [|p ps IH]; simpl; [done|]. by destruct (inlineData p). Qed.



End ServiceErrors.

(** ** Generating and generating again *)

Section GenerateFacts.
Import GeminiService App.

Lemma callGenerateAPI_resolved snap env w generation :
  outcome (awaited_generation env snap) = inr generation →
  callGenerateAPI snap env w =
    (Some (next w),
     (alloc generation (log_trace (awaited_generation env snap) (setError [] w))).2).
Proof.
  intros Hout. unfold callGenerateAPI. fold (awaited_generation env snap).
  cbn zeta. by rewrite Hout.
Qed.


Lemma saveCurrentProject_skipped snap env gens w :
  currentProjectId snap = None ∨ currentProjectId snap = Some [] →
  saveCurrentProject snap env gens w = w.
Proof. unfold saveCurrentProject. intros [-> | ->]; by destruct gens. Qed.

(** X7: the first generation of a project is shown and not saved.
    [handleGenerate] saves through the callback of the render in which the
    button was pressed, and in that render, at the start and after a
    reset, there is no current project: the component ends at the result
    step with the new generation and the new identifier, while the saved
    projects and local storage stay as they were. *)
Theorem handleGenerate_first_unsaved (env : Env) (w : World) (generation : Generation) :
  inputFiles (state w) ≠ [] →
  currentProjectId (state w) = None →
  outcome (awaited_generation env (state w)) = inr generation →
  let w' := handleGenerate env w in
  generations (state w') = [next w]
  ∧ heap w' (next w) = generation
  ∧ step (state w') = result
  ∧ currentProjectId (state w') = Some (date_toISOString env)
  ∧ savedProjects (state w') = savedProjects (state w)
  ∧ localStorage w' = localStorage w
  ∧ effects w' = effects w ++ (ServiceEvent <$> trace (awaited_generation env (state w))).
Proof.
  intros Hfiles Hid Hout. cbn zeta. unfold handleGenerate.
  destruct (inputFiles (state w)) as [|f fs] eqn:Hf; [done|].
  rewrite (callGenerateAPI_resolved _ _ _ _ Hout).
  rewrite saveCurrentProject_skipped by (by left).
  cbn. by rewrite heap_set_same.
Qed.

(** X8: when the form is used while a project is still the current one,
    as after a variation that failed, [handleGenerate] saves the new
    generation under the identifier of that project: its entry is replaced
    by one that holds the new generation alone, and the component goes on
    under a new identifier that has no entry. *)
Theorem handleGenerate_overwrites_previous (env : Env) (w : World)
    (generation : Generation) (previous : jsstring) :
  inputFiles (state w) ≠ [] →
  currentProjectId (state w) = Some previous → previous ≠ [] →
  outcome (awaited_generation env (state w)) = inr generation →
  let w' := handleGenerate env w in
  generations (state w') = [next w]
  ∧ currentProjectId (state w') = Some (date_toISOString env)
  ∧ savedProjects (state w') =
      {| sp_id := previous; sp_generations := [next w];
         sp_timestamp := date_toLocaleString env;
         sp_previewImage := imageUrl generation |}
      :: filter (λ p, sp_id p ≠ previous) (savedProjects (state w))
  ∧ (date_toISOString env ≠ previous →
     date_toISOString env ∉ (sp_id <$> savedProjects (state w)) →
     date_toISOString env ∉ (sp_id <$> savedProjects (state w'))).
Proof.
  intros Hfiles Hid Hne Hout. cbn zeta. unfold handleGenerate.
  destruct (inputFiles (state w)) as [|f fs] eqn:Hf; [done|].
  rewrite (callGenerateAPI_resolved _ _ _ _ Hout).
  destruct previous as [|c pid]; [done|].
  rewrite (saveCurrentProject_saved _ _ [next w] (next w) c pid) by done. cbn zeta.
  match goal with
  | |- context [try_setItem ?e ?k ?v ?m ?w0] =>
      destruct (try_setItem_state e k v m w0) as (Hst & _)
  end.
  cbn [setStep set_state state generations currentProjectId savedProjects].
  rewrite Hst.
  cbn [setStep setGenerations setCurrentProjectId setSavedProjects setError set_state
       state generations currentProjectId savedProjects heap alloc log_trace log snd].
  rewrite heap_set_same.
  split; [done|]. split; [done|]. split; [done|].
  intros Hnew Hnotin. rewrite fmap_cons, fmap_filter_id.
  intros Hin. apply elem_of_cons in Hin as [Hin|Hin]; [done|].
  apply list_elem_of_filter in Hin as [_ Hin]. done.
Qed.

Lemma handleGenerate_first_unsaved_witness :
  currentProjectId (state photo_chosen) = None
  ∧ generations (state (handleGenerate example_env photo_chosen)) = [0]
  ∧ step (state (handleGenerate example_env photo_chosen)) = result
  ∧ savedProjects (state (handleGenerate example_env photo_chosen)) = []
  ∧ localStorage (handleGenerate example_env photo_chosen) = ∅.
Proof.
  split; [reflexivity|].
  destruct (handleGenerate_first_unsaved example_env photo_chosen
              {| imageUrl := u16 "data:image/jpeg;base64,/9j/4AAQSkZJRg==";
                 description := u16 "Great sale! " ++ [55356%N; 57225%N] |})
    as (Hgens & _ & Hstep & _ & Hsaved & Hstorage & _);
    [done|reflexivity|vm_compute; reflexivity|].
  rewrite Hgens, Hstep, Hsaved, Hstorage. repeat split; vm_compute; reflexivity.
Defined.

Lemma handleGenerate_overwrites_previous_witness :
  currentProjectId (state failed_variation) = Some (u16 "2026-11-02T19:44:00.000Z")
  ∧ step (state failed_variation) = upload
  ∧ (λ p, (sp_id p, sp_generations p)) <$> savedProjects (state failed_variation)
    = [(u16 "2026-11-02T19:44:00.000Z", [0; 1])]
  ∧ (λ p, (sp_id p, sp_generations p))
      <$> savedProjects (state (handleGenerate later_env failed_variation))
    = [(u16 "2026-11-02T19:44:00.000Z", [2])]
  ∧ currentProjectId (state (handleGenerate later_env failed_variation))
    = Some (u16 "2026-11-02T20:05:00.000Z").
Proof.
  split; [vm_compute; reflexivity|]. split; [vm_compute; reflexivity|].
  split; [vm_compute; reflexivity|].
  destruct (handleGenerate_overwrites_previous later_env failed_variation
              {| imageUrl := u16 "data:image/jpeg;base64,/9j/4AAQSkZJRg==";
                 description := u16 "Great sale! " ++ [55356%N; 57225%N] |}
              (u16 "2026-11-02T19:44:00.000Z"))
    as (_ & Hid & Hsaved & _);
    [done|vm_compute; reflexivity|done|vm_compute; reflexivity|].
  rewrite Hid, Hsaved. split; [vm_compute; reflexivity|reflexivity].
Defined.

(** X9: a variation that succeeds adds one new object behind the
    generations there are: the objects before it read as they did, the
    new one holds what the service returned, and the entry of the current
    project, now at the head of the saved projects, holds the whole list,
    with the first image of the list as its preview. *)
Theorem handleGenerateAnother_appends (env : Env) (w : World)
    (generation : Generation) (projectId : jsstring) :
  reachable w →
  currentProjectId (state w) = Some projectId → projectId ≠ [] →
  outcome (awaited_generation env (state w)) = inr generation →
  let w' := handleGenerateAnother env w in
  generations (state w') = generations (state w) ++ [next w]
  ∧ heap w' <$> generations (state w') = (heap w <$> generations (state w)) ++ [generation]
  ∧ step (state w') = result
  ∧ ∃ p,
      savedProjects (state w') =
        p :: filter (λ q, sp_id q ≠ projectId) (savedProjects (state w))
      ∧ sp_id p = projectId
      ∧ sp_generations p = generations (state w')
      ∧ head (imageUrl <$> (heap w' <$> generations (state w'))) = Some (sp_previewImage p).
Proof.
  intros Hreach Hid Hne Hout. cbn zeta.
  apply reachable_generations_wf in Hreach as [_ Hlt].
  unfold handleGenerateAnother. rewrite (callGenerateAPI_resolved _ _ _ _ Hout).
  destruct projectId as [|c pid]; [done|].
  assert (∃ first, (generations (state w) ++ [next w]) !! 0 = Some first) as [first Hfirst]
    by (destruct (generations (state w)); by eexists).
  rewrite (saveCurrentProject_saved _ _ _ first c pid _ Hfirst Hid). cbn zeta.
  match goal with
  | |- context [try_setItem ?e ?k ?v ?m ?w0] =>
      destruct (try_setItem_state e k v m w0) as (Hst & Hheap & _)
  end.
  cbn [setStep set_state state generations savedProjects step heap].
  rewrite Hst, Hheap.
  cbn [setStep setGenerations setCurrentProjectId setSavedProjects setError set_state
       state generations currentProjectId savedProjects heap alloc log_trace log snd].
  assert (heap_set (heap w) (next w) generation <$> generations (state w) ++ [next w]
          = (heap w <$> generations (state w)) ++ [generation]) as Hread.
  { rewrite fmap_app, heap_set_fmap.
    - cbn [fmap list_fmap]. by rewrite heap_set_same.
    - intros Hin. rewrite Forall_forall in Hlt. specialize (Hlt _ Hin). lia. }
  split; [done|]. split; [done|]. split; [done|].
  eexists. split; [done|]. split; [done|]. split; [done|].
  cbn [sp_previewImage]. rewrite <- list_fmap_compose.
  destruct (generations (state w)) as [|l ls]; by simplify_eq/=.
Qed.

Lemma handleGenerateAnother_appends_witness :
  generations (state edited_run) = [0; 1]
  ∧ generations (state (handleGenerateAnother later_env edited_run)) = [0; 1; 2]
  ∧ imageUrl <$> (heap (handleGenerateAnother later_env edited_run) <$> [0; 1; 2])
    = [ u16 "data:image/jpeg;base64,/9j/4AAQSkZJRg==";
        u16 "data:image/png;base64,iVBORw0KGgo=";
        u16 "data:image/jpeg;base64,/9j/4AAQSkZJRg==" ].
Proof.
  split; [vm_compute; reflexivity|].
  destruct (handleGenerateAnother_appends later_env edited_run
              {| imageUrl := u16 "data:image/jpeg;base64,/9j/4AAQSkZJRg==";
                 description := u16 "Great sale! " ++ [55356%N; 57225%N] |}
              (u16 "2026-11-02T19:44:00.000Z"))
    as (Hgens & Hread & _);
    [|vm_compute; reflexivity|done|vm_compute; reflexivity|].
  { unfold edited_run. apply reachable_handle, example_run_reachable. }
  rewrite Hgens. split; [vm_compute; reflexivity|].
  change [0; 1; 2] with (generations (state edited_run) ++ [next edited_run]).
  rewrite <- Hgens, Hread. vm_compute. reflexivity.
Defined.



End GenerateFacts.

(** ** Loading the history *)

Section MountFacts.
Import GeminiService App.

Lemma parse_generations_spec gs w :
  (parse_generations gs w).1 = seq (next w) (length gs)
  ∧ next (parse_generations gs w).2 = next w + length gs
  ∧ (∀ l, l < next w → heap (parse_generations gs w).2 l = heap w l)
  ∧ heap (parse_generations gs w).2 <$> (parse_generations gs w).1 = gs
  ∧ localStorage (parse_generations gs w).2 = localStorage w
  ∧ effects (parse_generations gs w).2 = effects w.
Proof.
  revert w. induction gs as [|g gs IH]; intros w.
  - cbn. rewrite Nat.add_0_r. by repeat split.
  - cbn [parse_generations alloc].
    match goal with
    | |- context [parse_generations gs ?w1] =>
        destruct (IH w1) as (Hls & Hnext & Hold & Hread & Hstore & Heff);
        destruct (parse_generations gs w1) as [ls w'] eqn:Hp
    end.
    cbn [fst snd next heap localStorage effects] in *.
    split; [by rewrite Hls|]. split; [cbn [length]; lia|]. split; [|split; [|done]].
    + intros l Hl. rewrite Hold by lia. unfold heap_set. by rewrite decide_False by lia.
    + rewrite fmap_cons, Hread. f_equal. rewrite Hold by lia. apply heap_set_same.
Qed.

Lemma parse_projects_spec ps w :
  stringify (heap (parse_projects ps w).2) (parse_projects ps w).1 = ps
  ∧ next w ≤ next (parse_projects ps w).2
  ∧ (∀ l, l < next w → heap (parse_projects ps w).2 l = heap w l)
  ∧ Forall (λ p, Forall (λ l, l < next (parse_projects ps w).2) (sp_generations p))
      (parse_projects ps w).1
  ∧ localStorage (parse_projects ps w).2 = localStorage w
  ∧ effects (parse_projects ps w).2 = effects w.
Proof.
  revert w. induction ps as [|p ps IH]; intros w.
  - cbn. by repeat split.
  - cbn [parse_projects].
    destruct (parse_generations_spec (stored_generations p) w)
      as (Hls & Hnext & Hold & Hread & Hstore & Heff).
    destruct (parse_generations (stored_generations p) w) as [ls w1] eqn:Hg.
    destruct (IH w1) as (Hstr & Hle & Hold' & Hall & Hstore' & Heff').
    destruct (parse_projects ps w1) as [projects w2] eqn:Hp.
    cbn [fst snd] in *.
    assert (Forall (λ l, l < next w1) ls) as Hlt.
    { rewrite Hls. apply Forall_forall. intros l Hl%elem_of_seq. lia. }
    split; [|split; [lia|split; [|split; [|split; congruence]]]].
    + cbn [stringify fmap list_fmap]. fold (stringify (heap w2) projects).
      rewrite Hstr. cbn [sp_id sp_generations sp_timestamp sp_previewImage].
      replace (heap w2 <$> ls) with (stored_generations p); [by destruct p|].
      rewrite <- Hread. apply Forall_fmap_ext_1. eapply Forall_impl; [exact Hlt|].
      intros l Hl. cbn. by rewrite Hold'.
    + intros l Hl. rewrite Hold' by lia. by apply Hold.
    + constructor; [|done]. cbn [sp_generations].
      eapply Forall_impl; [exact Hlt|]. cbn. lia.
Qed.

Lemma mount_reads storage stored :
  storage !! savedProjects_key = Some stored →
  stringify (heap (mount (initial_world storage)))
    (savedProjects (state (mount (initial_world storage)))) = stored.
Proof.
  intros Hst. unfold mount. cbn [localStorage initial_world]. rewrite Hst.
  destruct (parse_projects_spec stored (initial_world storage)) as (Hstr & _).
  destruct (parse_projects stored (initial_world storage)) as [projects w'].
  by cbn [fst snd] in *.
Qed.




End MountFacts.

(** ** What every run keeps *)

Section RunFacts.
Import GeminiService App.

Lemma callGenerateAPI_keeps snap env w :
  savedProjects (state (callGenerateAPI snap env w).2) = savedProjects (state w)
  ∧ currentProjectId (state (callGenerateAPI snap env w).2) = currentProjectId (state w)
  ∧ localStorage (callGenerateAPI snap env w).2 = localStorage w
  ∧ (∀ l, l < next w → heap (callGenerateAPI snap env w).2 l = heap w l).
Proof.
  unfold callGenerateAPI, alloc. destruct (outcome _) as [err|generation]; cbn.
  - done.
  - repeat split. intros l Hl. unfold heap_set. by rewrite decide_False by lia.
Qed.

Lemma saveCurrentProject_history snap env gens w :
  saveCurrentProject snap env gens w = w
  ∨ ∃ p, sp_generations p = gens ∧ gens ≠ []
         ∧ currentProjectId snap = Some (sp_id p) ∧ sp_id p ≠ []
         ∧ savedProjects (state (saveCurrentProject snap env gens w)) =
             p :: filter (λ q, sp_id q ≠ sp_id p) (savedProjects snap).
Proof.
  unfold saveCurrentProject.
  destruct gens as [|first rest]; [by left|].
  destruct (currentProjectId snap) as [[|c pid]|]; [by left| |by left].
  right.
  exists {| sp_id := c :: pid; sp_generations := first :: rest;
            sp_timestamp := date_toLocaleString env;
            sp_previewImage := imageUrl (heap w first) |}.
  cbn [sp_id sp_generations]. repeat (split; [done|]).
  match goal with
  | |- context [try_setItem ?e ?k ?v ?m ?w0] =>
      destruct (try_setItem_state e k v m w0) as (-> & _)
  end. reflexivity.
Qed.

(** What a handler can do to the saved projects: nothing, take the
    entries of one identifier out, or put one entry with generations in
    front of the entries of the other identifiers. *)
Lemma handle_history a env w :
  savedProjects (state (handle a env w)) = savedProjects (state w)
  ∨ (∃ projectId,
       savedProjects (state (handle a env w)) =
         filter (λ q, sp_id q ≠ projectId) (savedProjects (state w)))
  ∨ (∃ p, sp_generations p ≠ [] ∧ sp_id p ≠ []
          ∧ savedProjects (state (handle a env w)) =
              p :: filter (λ q, sp_id q ≠ sp_id p) (savedProjects (state w))).
Proof.
  destruct a; cbn [handle]; try by left.
  - (* Generate *)
    unfold handleGenerate. destruct (inputFiles (state w)) as [|f fs]; [by left|].
    match goal with
    | |- context [callGenerateAPI ?s ?e ?w0] =>
        pose proof (callGenerateAPI_keeps s e w0) as (Hsaved & _);
        destruct (callGenerateAPI s e w0) as [[l|] w1]
    end; cbn [snd] in Hsaved; [|by left].
    match goal with
    | |- context [saveCurrentProject ?s ?e ?g ?w0] =>
        destruct (saveCurrentProject_history s e g w0) as [->|(p & Hg & Hne & _ & Hid & Heq)]
    end.
    + by left.
    + right; right. exists p. cbn [setStep set_state state savedProjects].
      rewrite Heq. split; [by rewrite Hg|done].
  - (* GenerateAnother *)
    unfold handleGenerateAnother.
    match goal with
    | |- context [callGenerateAPI ?s ?e ?w0] =>
        pose proof (callGenerateAPI_keeps s e w0) as (Hsaved & _);
        destruct (callGenerateAPI s e w0) as [[l|] w1]
    end; cbn [snd] in Hsaved; [|by left].
    match goal with
    | |- context [saveCurrentProject ?s ?e ?g ?w0] =>
        destruct (saveCurrentProject_history s e g w0) as [->|(p & Hg & Hne & _ & Hid & Heq)]
    end.
    + by left.
    + right; right. exists p. cbn [setStep set_state state savedProjects].
      rewrite Heq. split; [by rewrite Hg|done].
  - (* Edit *)
    unfold handleEdit.
    destruct (editPrompt (state w)) as [|c e]; [by left|].
    destruct (last (generations (state w))) as [l|]; [|by left].
    destruct (outcome _) as [err|newImageUrl]; [by left|].
    match goal with
    | |- context [saveCurrentProject ?s ?e ?g ?w0] =>
        destruct (saveCurrentProject_history s e g w0) as [->|(p & Hg & Hne & _ & Hid & Heq)]
    end.
    + by left.
    + right; right. exists p. cbn [setStep setEditPrompt set_state state savedProjects].
      rewrite Heq. split; [by rewrite Hg|done].
  - (* DeleteProject *)
    right; left. exists projectId. unfold handleDeleteProject.
    match goal with
    | |- context [try_setItem ?e ?k ?v ?m ?w0] =>
        destruct (try_setItem_state e k v m w0) as (-> & _)
    end. reflexivity.
Qed.

Lemma NoDup_filter_id (projectId : jsstring) (l : list SavedProject) :
  NoDup (sp_id <$> l) → NoDup (sp_id <$> filter (λ q, sp_id q ≠ projectId) l).
Proof. rewrite fmap_filter_id. apply NoDup_filter. Qed.

Lemma Forall_filter_keep {A} (P Q : A → Prop) `{!∀ x, Decision (Q x)} (l : list A) :
  Forall P l → Forall P (filter Q l).
Proof.
  rewrite !Forall_forall. intros Hall x Hx. apply Hall.
  by apply list_elem_of_filter in Hx as [_ ?].
Qed.

Lemma parse_projects_ids ps w :
  sp_id <$> (parse_projects ps w).1 = stored_id <$> ps
  ∧ Forall2 (λ p sp, length (sp_generations p) = length (stored_generations sp))
      (parse_projects ps w).1 ps.
Proof.
  revert w. induction ps as [|p ps IH]; intros w; [by split|].
  cbn [parse_projects].
  destruct (parse_generations_spec (stored_generations p) w) as (Hls & _).
  destruct (parse_generations (stored_generations p) w) as [ls w1].
  destruct (IH w1) as [Hids Hlen]. destruct (parse_projects ps w1) as [projects w2].
  cbn [fst snd] in *. split; [by rewrite !fmap_cons, Hids|].
  constructor; [|done]. cbn. by rewrite Hls, length_seq.
Qed.

(** X12: in every run of the component, whatever the handlers and the
    browser's answers, the saved projects keep one entry per identifier
    and at least one generation per entry, provided the history in local
    storage at the start was such a list. The history view reads the
    first generation of every entry. *)
Theorem history_stays_well_formed (storage : gmap jsstring (list StoredProject))
    (steps : list (action * Env)) :
  (∀ stored,
     storage !! savedProjects_key = Some stored →
     NoDup (stored_id <$> stored) ∧ Forall (λ p, stored_generations p ≠ []) stored) →
  NoDup (sp_id <$> savedProjects (state (run steps (mount (initial_world storage)))))
  ∧ Forall (λ p, sp_generations p ≠ [])
      (savedProjects (state (run steps (mount (initial_world storage))))).
Proof.
  intros Hstored.
  assert (NoDup (sp_id <$> savedProjects (state (mount (initial_world storage))))
          ∧ Forall (λ p, sp_generations p ≠ [])
              (savedProjects (state (mount (initial_world storage))))) as Hinit.
  { unfold mount. cbn [localStorage initial_world].
    destruct (storage !! savedProjects_key) as [stored|] eqn:Hst.
    - destruct (Hstored _ eq_refl) as [Hnd Hne].
      destruct (parse_projects_ids stored (initial_world storage)) as [Hids Hlen].
      destruct (parse_projects stored (initial_world storage)) as [projects w'].
      cbn [fst snd setSavedProjects set_state state savedProjects] in *.
      rewrite Hids. split; [done|].
      clear Hids Hnd Hst Hstored. revert Hne.
      induction Hlen as [|p sp ps sps Hl _ IH]; intros Hne; [constructor|].
      apply Forall_cons in Hne as [Hsp Hne]. constructor; [|by apply IH].
      destruct (sp_generations p), (stored_generations sp); done.
    - cbn. split; constructor. }
  generalize dependent (mount (initial_world storage)). clear Hstored.
  induction steps as [|[a env] steps IH]; intros w Hw; [done|].
  cbn [run foldl fst snd]. apply IH. destruct Hw as [Hnd Hne].
  destruct (handle_history a env w) as [Heq|[[pid Heq]|(p & Hgens & _ & Heq)]];
    rewrite Heq.
  - done.
  - split; [by apply NoDup_filter_id|by apply Forall_filter_keep].
  - split.
    + rewrite fmap_cons. apply NoDup_cons. split; [|by apply NoDup_filter_id].
      rewrite fmap_filter_id. intros Hin. by apply list_elem_of_filter in Hin as [? _].
    + constructor; [done|by apply Forall_filter_keep].
Qed.

Lemma history_stays_well_formed_witness :
  earlier_storage !! savedProjects_key
    = Some [ {| stored_id := u16 "2026-10-31T09:00:00.000Z";
                stored_generations :=
                  [ {| imageUrl := u16 "data:image/jpeg;base64,/9j/2wBDAAYEBQ==";
                       description := u16 "Oferta de otono" |} ];
                stored_timestamp := u16 "31/10/2026, 10:00:00";
                stored_previewImage := u16 "data:image/jpeg;base64,/9j/2wBDAAYEBQ==" |} ]
  ∧ NoDup (sp_id <$> savedProjects (state (run example_steps
                                             (mount (initial_world earlier_storage)))))
  ∧ Forall (λ p, sp_generations p ≠ [])
      (savedProjects (state (run example_steps (mount (initial_world earlier_storage))))).
Proof.
  split; [reflexivity|].
  apply history_stays_well_formed. intros stored Hst.
  assert (stored = [ {| stored_id := u16 "2026-10-31T09:00:00.000Z";
                        stored_generations :=
                          [ {| imageUrl := u16 "data:image/jpeg;base64,/9j/2wBDAAYEBQ==";
                               description := u16 "Oferta de otono" |} ];
                        stored_timestamp := u16 "31/10/2026, 10:00:00";
                        stored_previewImage :=
                          u16 "data:image/jpeg;base64,/9j/2wBDAAYEBQ==" |} ]) as ->.
  { change (earlier_storage !! savedProjects_key) with
      (Some [ {| stored_id := u16 "2026-10-31T09:00:00.000Z";
                 stored_generations :=
                   [ {| imageUrl := u16 "data:image/jpeg;base64,/9j/2wBDAAYEBQ==";
                        description := u16 "Oferta de otono" |} ];
                 stored_timestamp := u16 "31/10/2026, 10:00:00";
                 stored_previewImage :=
                   u16 "data:image/jpeg;base64,/9j/2wBDAAYEBQ==" |} ]) in Hst.
    by injection Hst. }
  split.
  - apply NoDup_singleton.
  - apply Forall_singleton. discriminate.
Defined.

End RunFacts.

(** ** What a usable run keeps *)

Section UsableRunFacts.
Import GeminiService App.


Lemma stringify_ext (h h' : Heap) (ps : list SavedProject) :
  Forall (λ p, Forall (λ l, h' l = h l) (sp_generations p)) ps →
  stringify h' ps = stringify h ps.
Proof.
  intros Hall. unfold stringify. apply Forall_fmap_ext_1.
  eapply Forall_impl; [exact Hall|]. intros p Hp. cbn. f_equal.
  by apply Forall_fmap_ext_1.
Qed.

Lemma stringify_alloc (h : Heap) n g (ps : list SavedProject) :
  Forall (λ p, Forall (λ l, l < n) (sp_generations p)) ps →
  stringify (heap_set h n g) ps = stringify h ps.
Proof.
  intros Hall. apply stringify_ext. eapply Forall_impl; [exact Hall|].
  intros p Hp. eapply Forall_impl; [exact Hp|]. intros l Hl. cbn in *.
  unfold heap_set. by rewrite decide_False by lia.
Qed.



Lemma saveCurrentProject_not_skipped snap env gens w c pid :
  gens ≠ [] → currentProjectId snap = Some (c :: pid) →
  effects (saveCurrentProject snap env gens w) ≠ effects w.
Proof.
  intros Hgens Hid. unfold saveCurrentProject, try_setItem. rewrite Hid.
  destruct gens as [|first rest]; [done|].
  destruct (setItem_throws env); cbn; intros Heq;
    apply (f_equal length) in Heq; rewrite length_app in Heq; cbn in Heq; lia.
Qed.















End UsableRunFacts.

(** ** Edits, deletions and refused writes *)

Section EditFacts.
Import GeminiService App.

Lemma handleDeleteProject_frame env projectId w :
  generations (state (handleDeleteProject env projectId w)) = generations (state w)
  ∧ editPrompt (state (handleDeleteProject env projectId w)) = editPrompt (state w)
  ∧ currentProjectId (state (handleDeleteProject env projectId w)) = currentProjectId (state w)
  ∧ heap (handleDeleteProject env projectId w) = heap w
  ∧ savedProjects (state (handleDeleteProject env projectId w))
    = filter (λ p, sp_id p ≠ projectId) (savedProjects (state w)).
Proof. unfold handleDeleteProject, try_setItem. by destruct (setItem_throws env). Qed.

Lemma handleEdit_saved env w earlier l c pid newImageUrl :
  generations (state w) = earlier ++ [l] →
  editPrompt (state w) ≠ [] →
  currentProjectId (state w) = Some (c :: pid) →
  outcome (awaited_edit env (imageUrl (heap w l)) (editPrompt (state w))) = inr newImageUrl →
  ∃ first,
    (earlier ++ [l]) !! 0 = Some first
    ∧ heap (handleEdit env w)
      = heap_set (heap w) l {| imageUrl := newImageUrl; description := description (heap w l) |}
    ∧ savedProjects (state (handleEdit env w)) =
        {| sp_id := c :: pid; sp_generations := earlier ++ [l];
           sp_timestamp := date_toLocaleString env;
           sp_previewImage :=
             imageUrl (heap_set (heap w) l
                         {| imageUrl := newImageUrl;
                            description := description (heap w l) |} first) |}
        :: filter (λ q, sp_id q ≠ c :: pid) (savedProjects (state w)).
Proof.
  intros Hgens Hprompt Hid Hout.
  rewrite (handleEdit_success _ _ _ _ _ Hgens Hprompt Hout).
  assert (∃ first, (earlier ++ [l]) !! 0 = Some first) as [first Hfirst]
    by (destruct earlier; by eexists).
  exists first. split; [done|].
  rewrite (saveCurrentProject_saved _ _ _ first c pid _ Hfirst Hid). cbn zeta.
  unfold try_setItem. by destruct (setItem_throws env).
Qed.

(** X15: deleting the project at work does not last. The deletion takes
    its entry out of the saved projects but keeps it the current project,
    so the next edit that goes through saves it again, at the head of the
    list. *)
Theorem deleted_current_project_returns (env env' : Env) (w : World)
    (earlier : list loc) (l : loc) (projectId newImageUrl : jsstring) :
  generations (state w) = earlier ++ [l] →
  editPrompt (state w) ≠ [] →
  currentProjectId (state w) = Some projectId → projectId ≠ [] →
  outcome (awaited_edit env' (imageUrl (heap w l)) (editPrompt (state w))) = inr newImageUrl →
  let deleted := handleDeleteProject env projectId w in
  (projectId ∉ (sp_id <$> savedProjects (state deleted)))
  ∧ sp_id <$> savedProjects (state (handleEdit env' deleted))
    = projectId :: filter (λ i, i ≠ projectId) (sp_id <$> savedProjects (state w))
  ∧ generations (state (handleEdit env' deleted)) = earlier ++ [l].
Proof.
  intros Hgens Hprompt Hid Hne Hout. cbn zeta.
  destruct (handleDeleteProject_frame env projectId w) as (Hg & Hp & Hi & Hh & Hs).
  destruct projectId as [|c pid]; [done|].
  split; [|split].
  - rewrite Hs, fmap_filter_id. intros Hin. by apply list_elem_of_filter in Hin as [? _].
  - destruct (handleEdit_saved env' (handleDeleteProject env (c :: pid) w)
                earlier l c pid newImageUrl) as (first & _ & _ & ->);
      [by rewrite Hg|by rewrite Hp|by rewrite Hi|by rewrite Hh, Hp|].
    rewrite Hs, fmap_cons, !fmap_filter_id. cbn [sp_id]. f_equal.
    rewrite list_filter_filter. apply list_filter_iff. tauto.
  - destruct (handleEdit_frame env' (handleDeleteProject env (c :: pid) w)) as [-> _].
    by rewrite Hg.
Qed.

Lemma deleted_current_project_returns_witness :
  sp_id <$> savedProjects (state example_run) = [u16 "2026-11-02T19:44:00.000Z"]
  ∧ savedProjects (state (handleDeleteProject example_env
                            (u16 "2026-11-02T19:44:00.000Z") example_run)) = []
  ∧ sp_id <$> savedProjects (state
      (handleEdit example_env
         (handleDeleteProject example_env (u16 "2026-11-02T19:44:00.000Z") example_run)))
    = [u16 "2026-11-02T19:44:00.000Z"].
Proof.
  assert (sp_id <$> savedProjects (state example_run) = [u16 "2026-11-02T19:44:00.000Z"])
    as Hids by (vm_compute; reflexivity).
  split; [exact Hids|]. split; [vm_compute; reflexivity|].
  destruct (deleted_current_project_returns example_env example_env example_run [0] 1
              (u16 "2026-11-02T19:44:00.000Z") (u16 "data:image/png;base64,iVBORw0KGgo="))
    as (_ & Hback & _);
    [vm_compute; reflexivity|by vm_compute|vm_compute; reflexivity|done
    |vm_compute; reflexivity|].
  rewrite Hback, Hids. vm_compute. reflexivity.
Defined.

(** X16: a write that local storage refuses is logged and nothing more.
    The deletion takes the entries out of the saved projects of the state
    and leaves local storage as it was, so after a reload the history is
    again the list that was stored, the deleted project included. *)
Theorem refused_delete_returns_on_reload (env : Env) (projectId : jsstring) (w : World)
    (e : exn) (stored : list StoredProject) :
  setItem_throws env = Some e →
  localStorage w !! savedProjects_key = Some stored →
  let w' := handleDeleteProject env projectId w in
  (projectId ∉ (sp_id <$> savedProjects (state w')))
  ∧ localStorage w' = localStorage w
  ∧ effects w' =
      effects w ++
      [ LocalStorageSetItem savedProjects_key (stringify (heap w) (savedProjects (state w')));
        ConsoleError [u16 "No se pudo eliminar el proyecto:"] ]
  ∧ stringify (heap (mount (initial_world (localStorage w'))))
      (savedProjects (state (mount (initial_world (localStorage w'))))) = stored.
Proof.
  intros Hthrow Hst. cbn zeta. unfold handleDeleteProject, try_setItem. rewrite Hthrow.
  cbn [log state heap localStorage effects setSavedProjects set_state savedProjects].
  split; [|split; [done|split; [done|by apply mount_reads]]].
  rewrite fmap_filter_id. intros Hin. by apply list_elem_of_filter in Hin as [? _].
Qed.

Lemma refused_delete_returns_on_reload_witness :
  sp_id <$> savedProjects (state (handleDeleteProject full_env
                                    (u16 "2026-11-02T19:44:00.000Z") edited_run)) = []
  ∧ stored_id <$> (stringify
      (heap (mount (initial_world (localStorage
         (handleDeleteProject full_env (u16 "2026-11-02T19:44:00.000Z") edited_run)))))
      (savedProjects (state (mount (initial_world (localStorage
         (handleDeleteProject full_env (u16 "2026-11-02T19:44:00.000Z") edited_run)))))))
    = [u16 "2026-11-02T19:44:00.000Z"].
Proof.
  split; [vm_compute; reflexivity|].
  assert (∃ stored, localStorage edited_run !! savedProjects_key = Some stored
                    ∧ stored_id <$> stored = [u16 "2026-11-02T19:44:00.000Z"])
    as (stored & Hst & Hids) by (eexists; split; vm_compute; reflexivity).
  destruct (refused_delete_returns_on_reload full_env (u16 "2026-11-02T19:44:00.000Z")
              edited_run (Error (u16 "QuotaExceededError")) stored eq_refl Hst)
    as (_ & _ & _ & Hreload).
  rewrite Hreload. exact Hids.
Defined.

(** X17: an edit that goes through refreshes the preview of the project:
    the entry it saves has the image of the first generation as the heap
    reads it after the edit, so for a project with one generation the
    preview is the edited image. *)
Theorem handleEdit_refreshes_preview (env : Env) (w : World)
    (earlier : list loc) (l : loc) (projectId newImageUrl : jsstring) :
  generations (state w) = earlier ++ [l] →
  editPrompt (state w) ≠ [] →
  currentProjectId (state w) = Some projectId → projectId ≠ [] →
  outcome (awaited_edit env (imageUrl (heap w l)) (editPrompt (state w))) = inr newImageUrl →
  ∃ p rest,
    savedProjects (state (handleEdit env w)) = p :: rest
    ∧ sp_id p = projectId
    ∧ head (imageUrl <$> (heap (handleEdit env w) <$> sp_generations p))
      = Some (sp_previewImage p)
    ∧ (earlier = [] → sp_previewImage p = newImageUrl).
Proof.
  intros Hgens Hprompt Hid Hne Hout. destruct projectId as [|c pid]; [done|].
  destruct (handleEdit_saved env w earlier l c pid newImageUrl Hgens Hprompt Hid Hout)
    as (first & Hfirst & -> & ->).
  eexists _, _. split; [done|]. split; [done|]. cbn [sp_generations sp_previewImage].
  split.
  - rewrite <- list_fmap_compose. destruct earlier; by simplify_eq/=.
  - intros ->. simplify_eq/=. by rewrite heap_set_same.
Qed.

Lemma handleEdit_refreshes_preview_witness :
  generations (state (handle Generate example_env photo_chosen)) = [] ++ [0]
  ∧ sp_previewImage <$>
      savedProjects (state
        (handleEdit example_env
           (handle (TypeEditPrompt (u16 "mas brillo")) example_env
              (handle Generate example_env photo_chosen))))
    = [u16 "data:image/png;base64,iVBORw0KGgo="].
Proof.
  split; [vm_compute; reflexivity|].
  destruct (handleEdit_refreshes_preview example_env
              (handle (TypeEditPrompt (u16 "mas brillo")) example_env
                 (handle Generate example_env photo_chosen))
              [] 0 (u16 "2026-11-02T19:44:00.000Z")
              (u16 "data:image/png;base64,iVBORw0KGgo="))
    as (p & rest & Hsaved & _ & _ & Hnew);
    [vm_compute; reflexivity|by vm_compute|vm_compute; reflexivity|done
    |vm_compute; reflexivity|].
  assert (rest = []) as ->.
  { apply (f_equal length) in Hsaved. vm_compute in Hsaved. by destruct rest. }
  rewrite Hsaved, list_fmap_singleton, (Hnew eq_refl). reflexivity.
Defined.

Lemma editAdImage_trace svc key base64Image mimeType' editPrompt :
  API_KEY svc = Some key → key ≠ [] →
  trace (editAdImage svc base64Image mimeType' editPrompt)
    = [CallGenerateContent (edit_request base64Image mimeType' editPrompt)].
Proof.
  intros Hkey Hne. unfold editAdImage, getAiClient. rewrite Hkey.
  destruct key as [|c key]; [done|].
  fold (edit_request base64Image mimeType' editPrompt).
  unfold await_generateContent, mbind, M_bind, mret, M_ret; cbn [outcome trace].
  destruct (models_generateContent svc _) as [e|response]; [done|]. cbn [outcome trace].
  destruct (candidates response !! 0) as [candidate|]; [|done].
  by rewrite scan_parts_trace.
Qed.

Lemma saveCurrentProject_effects snap env gens w :
  ∃ written,
    effects (saveCurrentProject snap env gens w) = effects w ++ written
    ∧ Forall (λ e, ∀ ev, e ≠ ServiceEvent ev) written.
Proof.
  unfold saveCurrentProject, try_setItem.
  destruct gens as [|first rest]; [exists []; by rewrite app_nil_r|].
  destruct (currentProjectId snap) as [[|c pid]|];
    [exists []; by rewrite app_nil_r| |exists []; by rewrite app_nil_r].
  destruct (setItem_throws env); eexists; (split; [reflexivity|]);
    repeat constructor; done.
Qed.

(** X18: an edit works on the image of the last generation as it is then.
    When fetching that image fails nothing is sent to the service. When it
    is fetched, the handler sends one request: the fetched bytes with
    their MIME type, and the typed instruction behind the fixed prefix;
    whatever else it does after that is a write to storage or a log. *)
Theorem handleEdit_requests_last_image (env : Env) (w : World)
    (earlier : list loc) (l : loc) :
  generations (state w) = earlier ++ [l] →
  editPrompt (state w) ≠ [] →
  (∀ e, fetch_fileToBase64 env (imageUrl (heap w l)) = inl e →
     effects (handleEdit env w) = effects w
     ∧ error (state (handleEdit env w)) = u16 "Error al editar imagen: " ++ errorMessage e)
  ∧ (∀ img key,
       fetch_fileToBase64 env (imageUrl (heap w l)) = inr img →
       API_KEY (svc env) = Some key → key ≠ [] →
       ∃ after,
         effects (handleEdit env w) =
           effects w
           ++ ServiceEvent (CallGenerateContent
                (edit_request (base64 img) (img_mimeType img) (editPrompt (state w))))
           :: after
         ∧ Forall (λ e, ∀ ev, e ≠ ServiceEvent ev) after).
Proof.
  intros Hgens Hprompt. split.
  - intros e Hfetch.
    assert (awaited_edit env (imageUrl (heap w l)) (editPrompt (state w)) = throw e) as Heq
      by (unfold awaited_edit; by rewrite Hfetch).
    rewrite (handleEdit_failure _ _ _ _ e Hgens Hprompt) by (by rewrite Heq).
    rewrite Heq. cbn. by rewrite app_nil_r.
  - intros img key Hfetch Hkey Hne.
    assert (trace (awaited_edit env (imageUrl (heap w l)) (editPrompt (state w)))
            = [CallGenerateContent
                 (edit_request (base64 img) (img_mimeType img) (editPrompt (state w)))])
      as Htrace.
    { unfold awaited_edit. rewrite Hfetch. by apply (editAdImage_trace _ key). }
    destruct (outcome (awaited_edit env (imageUrl (heap w l)) (editPrompt (state w))))
      as [err|newImageUrl] eqn:Hout.
    + rewrite (handleEdit_failure _ _ _ _ _ Hgens Hprompt Hout).
      exists []. cbn [setStep setError set_state effects log_trace log].
      by rewrite Htrace.
    + rewrite (handleEdit_success _ _ _ _ _ Hgens Hprompt Hout).
      cbn [setStep setEditPrompt set_state effects].
      match goal with
      | |- context [saveCurrentProject ?s ?e ?g ?w0] =>
          destruct (saveCurrentProject_effects s e g w0) as (written & -> & Hwritten)
      end.
      exists written. cbn [setGenerations set_heap setStep setError set_state effects
                           log_trace log].
      rewrite Htrace. cbn [fmap list_fmap]. by rewrite <- app_assoc.
Qed.

Lemma handleEdit_requests_last_image_witness :
  fetch_fileToBase64 example_env (imageUrl (heap example_run 1))
    = inr {| base64 := u16 "/9j/4AAQSkZJRg=="; img_mimeType := u16 "image/jpeg" |}
  ∧ ∃ after,
      effects (handleEdit example_env example_run) =
        effects example_run
        ++ ServiceEvent (CallGenerateContent
             (edit_request (u16 "/9j/4AAQSkZJRg==") (u16 "image/jpeg")
                (u16 "cambia el fondo a una playa")))
        :: after.
Proof.
  split; [reflexivity|].
  destruct (proj2 (handleEdit_requests_last_image example_env example_run [0] 1
                     ltac:(vm_compute; reflexivity) ltac:(by vm_compute))
              {| base64 := u16 "/9j/4AAQSkZJRg=="; img_mimeType := u16 "image/jpeg" |}
              (u16 "k3y") eq_refl eq_refl ltac:(done))
    as (after & Heff & _).
  exists after. exact Heff.
Defined.

End EditFacts.
